(** * Multi-objective multi-fidelity Bayesian optimisation tutorial

    A shallow embedding of [Multi_objective_multi_fidelity_BO.py]: the cost
    model, the fidelity-biased initial sampler, the three optimisation loops
    (MOMF, MF-HVKG, qNEHVI) and the post-hoc Pareto evaluator.

    Conventions of the embedding.
    - A tensor of doubles of shape [N x d] is a list of rows, each row a list
      of real numbers; arithmetic on doubles is idealised as arithmetic on
      [R] (no rounding, no NaN).
    - The random generator is a stream [u : nat -> R] of uniform draws and a
      position in that stream, threaded explicitly.
    - The model fit and the acquisition optimiser are external collaborators;
      they appear as functions the loops are parameterised by.
    - A [while] loop is a [Fixpoint] on a fuel argument that returns [None]
      when the fuel runs out; termination theorems exhibit enough fuel. *)

From Stdlib Require Import Reals Lra Lia List ZArith Bool.
Import ListNotations.
Local Open Scope R_scope.

(** ** Tensors *)

Module Tensor.

Definition row := list R.
Definition tensor := list row.

(** [X[..., -1]]: the last coordinate of a row (the fidelity). *)
Definition last_coord (r : row) : R := last r 0.

(** [X[..., -1:]]: the slice that keeps only the last column. *)
Definition last_slice (r : row) : row :=
  match r with
  | [] => []
  | _ => [last r 0]
  end.

(** [X[:, -1] = v] on one row.  Python raises on a row with no column;
    rows here are never empty when this is called. *)
Definition set_last (v : R) (r : row) : row := removelast r ++ [v].

Definition set_last_col (v : R) (X : tensor) : tensor := map (set_last v) X.

(** [X.sum()]. *)
Definition row_sum (r : row) : R := fold_right Rplus 0 r.
Definition tsum (X : tensor) : R := fold_right (fun r acc => row_sum r + acc) 0 X.

(** [X.item()] of a tensor with exactly one element (Python raises on any
    other shape). *)
Definition item (X : tensor) : R :=
  match X with
  | [[v]] => v
  | _ => 0
  end.

(** [torch.ones(q, d)] and [torch.zeros(q, d)]. *)
Definition ones (q d : nat) : tensor := repeat (repeat 1 d) q.
Definition zeros (q d : nat) : tensor := repeat (repeat 0 d) q.

(** [torch.cat([X, Y], dim=-1)]: rows are glued pairwise. *)
Definition cat_cols (X Y : tensor) : tensor :=
  map (fun p => fst p ++ snd p) (combine X Y).

(** [X[:, :k]]. *)
Definition take_cols (k : nat) (X : tensor) : tensor := map (firstn k) X.

(** [X[mask]] for a boolean mask over the rows. *)
Definition select (mask : list bool) (X : tensor) : tensor :=
  map fst (filter snd (combine X mask)).

End Tensor.
Import Tensor.

(** ** Cost model *)

(** [cost_func]: [torch.exp(torch.tensor(4.8) * x)]. *)
Definition cost_func (x : R) : R := exp (4.8 * x).

(** [cost_callable]: [cost_func(X[..., -1:])], elementwise. *)
Definition cost_callable (X : tensor) : tensor :=
  map (fun r => map cost_func (last_slice r)) X.

(** ** Fidelity-biased sampler *)

(** [inv_transform]:
    [5 / 24 * torch.log(-exp(24 / 5) / (exp(24 / 5) * u - u - exp(24 / 5)))]. *)
Definition inv_transform (u : R) : R :=
  5 / 24 * ln (- exp (24 / 5) / (exp (24 / 5) * u - u - exp (24 / 5))).

(** The cumulative distribution function of the density proportional to
    [1 / cost_func s] on [[0, 1]], and that density. *)
Definition fidelity_cdf (s : R) : R := (1 - exp (- 4.8 * s)) / (1 - exp (- 4.8)).
Definition fidelity_pdf (s : R) : R := (4.8 / (1 - exp (- 4.8))) * / cost_func s.

(** ** Random generator

    [torch.rand(q, d)] reads [q * d] uniforms off the generator's stream [u],
    starting at position [g], and leaves the generator at [g + q * d]. *)

Section Generator.
Variable u : nat -> R.

Definition torch_rand (g q d : nat) : tensor * nat :=
  (map (fun i => map u (seq (g + i * d) d)) (seq 0 q), (g + q * d)%nat).
End Generator.

(** ** [gen_init_data] *)

Section Sampler.
Variable u : nat -> R.        (* the generator's stream *)
Variable BC : row -> row.     (* the true objective, evaluated row by row *)
Variable dim_x : nat.         (* [BC.bounds.shape[1]] *)

(** [n * cost_callable(torch.ones(1, dim_x)).item()]. *)
Definition total_cost_limit (n : R) : R :=
  n * item (cost_callable (ones 1 dim_x)).

(** The body of the loop up to the cost update: draw one row and replace
    its fidelity by [inv_transform] of itself. *)
Definition draw_point (g : nat) : tensor * nat :=
  let (new_x, g') := torch_rand u g 1 dim_x in
  (map (fun r => set_last (inv_transform (last_coord r)) r) new_x, g').

(** [while total_cost < total_cost_limit: ...]; returns the rows drawn and
    the generator position. *)
Fixpoint gen_init_loop (fuel : nat) (n : R) (g : nat) (total_cost : R)
         (train_x : tensor) {struct fuel} : option (tensor * nat) :=
  match fuel with
  | O => None
  | S fuel' =>
      if Rlt_dec total_cost (total_cost_limit n) then
        let (new_x, g') := draw_point g in
        gen_init_loop fuel' n g'
                      (total_cost + item (cost_callable new_x))
                      (train_x ++ new_x)
      else Some (train_x, g)
  end.

Definition gen_init_data (fuel : nat) (n : R) (g : nat)
  : option (tensor * tensor) :=
  match gen_init_loop fuel n g 0 [] with
  | Some (drawn, _) =>
      let train_x := removelast drawn in
      let train_obj := map BC train_x in
      Some (train_x, train_obj)
  | None => None
  end.

(** Fuel that always suffices when every draw costs at least [1]. *)
Definition sampler_fuel (n : R) : nat :=
  S (Z.to_nat (up (total_cost_limit n))).
End Sampler.

(** ** Problem and optimisation settings *)

Definition BATCH_SIZE : nat := 1.
Definition EVAL_BUDGET (SMOKE_TEST : bool) : R := if SMOKE_TEST then 2.1 else 4.
Definition n_INIT : R := 2.

(** A bounds tensor of shape [2 x d]: the row of lower bounds and the row of
    upper bounds. *)
Definition bounds := (row * row)%type.

(** [standard_bounds = torch.zeros(2, dim_x); standard_bounds[1] = 1]. *)
Definition standard_bounds (d : nat) : bounds := (repeat 0 d, repeat 1 d).

(** [bounds[:, :k]]. *)
Definition bounds_take (k : nat) (b : bounds) : bounds :=
  (firstn k (fst b), firstn k (snd b)).

(** Modelled from the spec: [unnormalize] of [botorch.utils.transforms], which
    is not defined in the script.  It maps a design point from the normalized
    range [[0, 1]] per dimension to the declared bounds:
    [X * (bounds[1] - bounds[0]) + bounds[0]], coordinate by coordinate. *)
Definition unnormalize_row (b : bounds) (r : row) : row :=
  map (fun p => fst p * (snd (snd p) - fst (snd p)) + fst (snd p))
      (combine r (combine (fst b) (snd b))).

Definition unnormalize (X : tensor) (b : bounds) : tensor :=
  map (unnormalize_row b) X.

(** ** Optimisation loops *)

(** The state a loop carries from one iteration to the next. *)
Record loop_state : Type := {
  train_x : tensor;
  train_obj : tensor;
  iteration : nat;
  total_cost : R
}.

(** What the external collaborators return for one iteration: the model is
    fitted on the training data and the acquisition function is optimised,
    giving [(candidates, vals)].  The iteration number stands for whatever
    else the collaborators depend on (generator, sampler). *)
Definition acquisition := nat -> tensor -> tensor -> tensor * R.

(** [if vals.item() == 0.0: candidates[:, -1] = 0.0]. *)
Definition zero_value_guard (candidates : tensor) (vals : R) : tensor :=
  if Req_dec_T vals 0 then set_last_col 0 candidates else candidates.

Section Loops.
Variable SMOKE_TEST : bool.
Variable u : nat -> R.            (* the generator's stream *)
Variable BC : row -> row.         (* the true objective, row by row *)
Variable BC_bounds : bounds.      (* [BC.bounds] *)
Variable dim_x : nat.             (* [BC.dim] *)
Variable acq : acquisition.       (* model fit and [optimize_acqf] *)

(** [fid_obj]: [1 * X[..., -1]]. *)
Definition fid_obj (r : row) : R := 1 * last_coord r.

(** [get_objective_momf]: the objectives with the fidelity objective
    appended as a last column. *)
Definition get_objective_momf (x : tensor) : tensor :=
  let y := map BC x in
  let fid_out := map (fun r => [fid_obj r]) x in
  cat_cols y fid_out.

(** The candidates of MOMF and MF-HVKG as they are handed to the
    observation: the optimiser's candidates after the zero-value guard. *)
Definition guarded_candidates (it : nat) (tx tobj : tensor) : tensor :=
  let (candidates, vals) := acq it tx tobj in
  zero_value_guard candidates vals.

Definition optimize_MOMF_and_get_obs (it : nat) (tx tobj : tensor)
           (standard_bounds : bounds) : tensor * tensor :=
  let candidates := guarded_candidates it tx tobj in
  let new_x := unnormalize candidates standard_bounds in
  let new_obj := get_objective_momf new_x in
  (new_x, new_obj).

Definition optimize_HVKG_and_get_obs (it : nat) (tx tobj : tensor)
  : tensor * tensor :=
  let candidates := guarded_candidates it tx tobj in
  let new_x := unnormalize candidates BC_bounds in
  let new_obj := map BC new_x in
  (new_x, new_obj).

(** The acquisition value is discarded; a column of ones becomes the
    fidelity of every candidate. *)
Definition optimize_qNEHVI_and_get_obs (it : nat) (tx tobj : tensor)
           (standard_bounds : bounds) (q : nat) : tensor * tensor :=
  let (candidates, _) := acq it tx tobj in
  let new_x := unnormalize candidates standard_bounds in
  let new_x := cat_cols new_x (ones q 1) in
  let new_obj := map BC new_x in
  (new_x, new_obj).

(** The update that ends every iteration: concatenate, count, charge. *)
Definition update (st : loop_state) (new : tensor * tensor) : loop_state :=
  {| train_x := train_x st ++ fst new;
     train_obj := train_obj st ++ snd new;
     iteration := S (iteration st);
     total_cost := total_cost st + tsum (cost_callable (fst new)) |}.

Definition momf_step (st : loop_state) : loop_state :=
  update st (optimize_MOMF_and_get_obs (iteration st) (train_x st) (train_obj st)
                                       (standard_bounds dim_x)).

Definition kg_step (st : loop_state) : loop_state :=
  update st (optimize_HVKG_and_get_obs (iteration st) (train_x st) (train_obj st)).

Definition qnehvi_step (st : loop_state) : loop_state :=
  update st (optimize_qNEHVI_and_get_obs
               (iteration st) (take_cols 2 (train_x st)) (train_obj st)
               (bounds_take 2 (standard_bounds dim_x)) BATCH_SIZE).

(** [EVAL_BUDGET * cost_func(1)]. *)
Definition eval_budget : R := EVAL_BUDGET SMOKE_TEST * cost_func 1.

(** [while total_cost < EVAL_BUDGET * cost_func(1): ...]. *)
Fixpoint bo_loop (step : loop_state -> loop_state) (fuel : nat)
         (st : loop_state) {struct fuel} : option loop_state :=
  match fuel with
  | O => None
  | S fuel' =>
      if Rlt_dec (total_cost st) eval_budget
      then bo_loop step fuel' (step st)
      else Some st
  end.

(** The three initial states ([torch.manual_seed(0)] puts the generator at
    the start of its stream). *)
Definition momf_init (fuel : nat) : option loop_state :=
  match gen_init_data u BC dim_x fuel n_INIT 0 with
  | Some (tx, _) =>
      Some {| train_x := tx;
              train_obj := get_objective_momf tx;
              iteration := 0;
              total_cost := tsum (cost_callable tx) |}
  | None => None
  end.

Definition kg_init (fuel : nat) : option loop_state :=
  match gen_init_data u BC dim_x fuel n_INIT 0 with
  | Some (tx, tobj) =>
      Some {| train_x := tx;
              train_obj := tobj;
              iteration := 0;
              total_cost := tsum (cost_callable tx) |}
  | None => None
  end.

Definition qnehvi_init : loop_state :=
  let (tx, _) := torch_rand u 0 2 3 in
  let tx := set_last_col 1 tx in
  {| train_x := tx;
     train_obj := map BC tx;
     iteration := 0;
     total_cost := tsum (cost_callable tx) |}.
End Loops.

(** Fuel that suffices for a loop whose every iteration costs at least [1]. *)
Definition loop_fuel (SMOKE_TEST : bool) (st : loop_state) : nat :=
  S (Z.to_nat (up (eval_budget SMOKE_TEST - total_cost st))).

(** The contract of the acquisition optimiser the termination argument
    relies on: it returns [BATCH_SIZE] candidates of [d] coordinates, all
    within the unit box it was given as bounds. *)
Definition in_unit_box (d : nat) (r : row) : Prop :=
  length r = d /\ Forall (fun x => 0 <= x <= 1) r.

Definition acq_in_bounds (d : nat) (acq : acquisition) : Prop :=
  forall it tx tobj,
    length (fst (acq it tx tobj)) = BATCH_SIZE /\
    Forall (in_unit_box d) (fst (acq it tx tobj)).

(** [BC.bounds] has one lower and one upper bound per input dimension, and
    its fidelity range is a non-negative interval. *)
Definition fidelity_bounds_ok (d : nat) (b : bounds) : Prop :=
  length (fst b) = d /\ length (snd b) = d /\
  0 <= last_coord (fst b) <= last_coord (snd b).

(** [b] keeps everything [a] holds: the ledger did not decrease and both
    sequences of [a] are prefixes of those of [b]. *)
Definition extends_state (a b : loop_state) : Prop :=
  total_cost a <= total_cost b /\
  (length (train_x a) <= length (train_x b))%nat /\
  (length (train_obj a) <= length (train_obj b))%nat /\
  firstn (length (train_x a)) (train_x b) = train_x a /\
  firstn (length (train_obj a)) (train_obj b) = train_obj a.


(** The invariant of the qNEHVI loop: every design point is at the target
    fidelity and the observations are the objective at the design points. *)
Definition at_full_fidelity (BC : row -> row) (st : loop_state) : Prop :=
  Forall (fun r => last_coord r = 1) (train_x st) /\
  train_obj st = map BC (train_x st).


(** ** Pareto evaluator *)

Definition NUM_DISCRETE_POINTS (SMOKE_TEST : bool) : nat :=
  if SMOKE_TEST then 100%nat else (100 * 1000)%nat.
Definition CHUNK_SIZE : nat := 512.

(** [range(0, n, step)]. *)
Definition range_step (n step : nat) : list nat :=
  map (fun i => (i * step)%nat) (seq 0 ((n + step - 1) / step)).

(** [normalized_target_fidelities[2]]: [(fidelity - lb) / (ub - lb)] for the
    target fidelity [1.0] and the standard bounds of the fidelity. *)
Definition normalized_target_fidelity : R := (1 - 0) / (1 - 0).

(** Modelled from the spec: [project_to_target_fidelity] of
    [botorch.acquisition.utils], which [project] calls and which is not
    defined in the script.  It projects the fidelity dimension to its target
    value: a point that has all [d] coordinates gets its fidelity overwritten
    with the target, a point given by its non-fidelity coordinates only gets
    the target appended as its fidelity. *)
Definition project_row (d : nat) (r : row) : row :=
  if Nat.eqb (length r) d
  then set_last normalized_target_fidelity r
  else r ++ [normalized_target_fidelity].

Definition project (d : nat) (X : tensor) : tensor := map (project_row d) X.

(** [a > b] on reals, as a boolean. *)
Definition Rgtb (a b : R) : bool := if Rlt_dec b a then true else false.

(** [(Y[j] > vals).any(dim=-1)]. *)
Definition any_gt (y vals : row) : bool :=
  existsb (fun p => Rgtb (fst p) (snd p)) (combine y vals).

(** One round of the pairwise comparison: every point still marked stays
    marked only if it is the point [i] itself or is strictly better than
    point [i] in some objective. *)
Definition update_efficient (Y : tensor) (i : nat) (is_efficient : list bool)
  : list bool :=
  map (fun p : nat * (row * bool) =>
         if snd (snd p)
         then Nat.eqb (fst p) i || any_gt (fst (snd p)) (nth i Y [])
         else false)
      (combine (seq 0 (length Y)) (combine Y is_efficient)).

(** Modelled from the spec: [_is_non_dominated_loop] of
    [botorch.utils.multi_objective.pareto], which is not defined in the
    script.  It filters for non-domination via a pairwise-comparison loop:
    all points start marked; each point [i], in order, that is still marked
    is compared with every marked point, as in [update_efficient]. *)
Definition _is_non_dominated_loop (Y : tensor) : list bool :=
  fold_left
    (fun is_efficient i =>
       if nth i is_efficient false
       then update_efficient Y i is_efficient
       else is_efficient)
    (seq 0 (length Y))
    (repeat true (length Y)).

(** [a] dominates [b]: at least as good in every objective and strictly
    better in one (objectives are maximised). *)
Definition dominates (a b : row) : Prop :=
  Forall2 (fun x y => y <= x) a b /\
  Exists (fun p => snd p < fst p) (combine a b).

(** A design point within the declared bounds. *)
Definition feasible (b : bounds) (r : row) : Prop :=
  Forall2 (fun x lu => fst lu <= x <= snd lu) r (combine (fst b) (snd b)).

Section ParetoEvaluator.
Variable SMOKE_TEST : bool.
Variable u : nat -> R.                          (* the generator's stream *)
Variable BC : row -> row.                       (* the true objective *)
Variable BC_bounds : bounds.                    (* [BC.bounds] *)
Variable BC_ref_point : row.                    (* [BC.ref_point] *)
Variable dim_x : nat.                           (* [BC.dim] *)
(** [model.posterior(X.unsqueeze(-2)).mean.squeeze(-2)], row by row. *)
Variable posterior_mean : row -> row.
(** [FastNondominatedPartitioning(ref_point, Y).compute_hypervolume()]. *)
Variable compute_hypervolume : row -> tensor -> R.
(** [is_non_dominated] of the library. *)
Variable is_non_dominated : tensor -> list bool.
(** [minimize] of the evolutionary library: from the number of variables
    of the problem (whose box is [xl = 0], [xu = 1]), its evaluation
    callback, the population size and the number of generations to
    [res.X]. *)
Variable minimize : nat -> (tensor -> tensor) -> nat -> nat -> tensor.

(** The tail both strategies share: unnormalize, evaluate the true
    objective, compute the hypervolume. *)
Definition true_hypervolume (X : tensor) : R :=
  let X := unnormalize X BC_bounds in
  let Y := map BC X in
  compute_hypervolume BC_ref_point Y.

(** *** Discretized strategy *)

Definition discrete_set (g : nat) (is_mf_model : bool) : tensor :=
  let (discrete_set, _) :=
    torch_rand u g (NUM_DISCRETE_POINTS SMOKE_TEST) (dim_x - 1) in
  let discrete_set := if is_mf_model then project dim_x discrete_set else discrete_set in
  set_last_col 1 discrete_set.

(** The posterior mean, evaluated chunk by chunk and concatenated. *)
Definition chunked_preds (X : tensor) : tensor :=
  let preds_list :=
    map (fun start => map posterior_mean (firstn CHUNK_SIZE (skipn start X)))
        (range_step (NUM_DISCRETE_POINTS SMOKE_TEST) CHUNK_SIZE) in
  concat preds_list.

Definition discrete_pareto_X (g : nat) (is_mf_model : bool) : tensor :=
  let discrete_set := discrete_set g is_mf_model in
  let preds := chunked_preds discrete_set in
  let pareto_mask := _is_non_dominated_loop preds in
  select pareto_mask discrete_set.

Definition get_pareto_discretized (g : nat) (is_mf_model : bool) : R :=
  let pareto_X := discrete_pareto_X g is_mf_model in
  let pareto_X := if is_mf_model then pareto_X else project dim_x pareto_X in
  true_hypervolume pareto_X.

(** *** Evolutionary strategy *)

(** [PosteriorMeanPymooProblem._evaluate]: the negated posterior mean. *)
Definition _evaluate (is_mf_model : bool) (x : tensor) : tensor :=
  let X := if is_mf_model then project dim_x x else x in
  let y := map posterior_mean X in
  map (map Ropp) y.

Definition get_pareto_nsga2 (non_fidelity_indices : list nat)
           (population_size max_gen : nat) (is_mf_model : bool) : R :=
  let dim := length non_fidelity_indices in
  let X := minimize dim (_evaluate is_mf_model) population_size max_gen in
  let X := if is_mf_model then project dim_x X else X in
  let preds := map posterior_mean X in
  let pareto_mask := is_non_dominated preds in
  let X := select pareto_mask X in
  let X := if is_mf_model then X else project dim_x X in
  true_hypervolume X.

(** Modelled from the spec: [BC.max_hv], a constant of the test problem
    that is not defined in the script.  It is the problem's known maximum
    achievable hypervolume: no set of design points within the declared
    bounds has true objective values of a larger hypervolume against the
    reference point. *)
Definition is_max_hv (max_hv : R) : Prop :=
  forall X : tensor,
    Forall (feasible BC_bounds) X ->
    compute_hypervolume BC_ref_point (map BC X) <= max_hv.
End ParetoEvaluator.

(** The contract of the evolutionary optimiser: the designs it returns have
    one coordinate per variable of the problem and lie within the problem's
    box [[0, 1]^n_var]. *)
Definition minimize_in_box (minimize : nat -> (tensor -> tensor) -> nat -> nat -> tensor)
  : Prop :=
  forall n_var evaluate population_size max_gen,
    Forall (in_unit_box n_var) (minimize n_var evaluate population_size max_gen).

(** [BC.bounds] has one interval per input dimension. *)
Definition bounds_ok (d : nat) (b : bounds) : Prop :=
  length (fst b) = d /\ length (snd b) = d /\ Forall2 Rle (fst b) (snd b).

(** ** Evaluation of a finished run *)

(** [range(start, stop, step)] for a positive step. *)
Definition range3 (start stop step : nat) : list nat :=
  map (fun k => (start + k * step)%nat)
      (seq 0 ((stop - start + step - 1) / step)).

Section Evaluation.
(** Fit a model on the given inputs and observations and return what
    [get_pareto] computes for it. *)
Variable hypervolume_of : tensor -> tensor -> R.

(** MF-HVKG is evaluated after every 5 evaluations: the lists [hvs_kg] and
    [costs]. *)
Definition evaluate_kg (MF_n_INIT : nat) (train_x_kg train_obj_kg : tensor)
  : list R * list R :=
  let checkpoints := range3 MF_n_INIT (length train_x_kg + 1) 5 in
  (map (fun i => hypervolume_of (firstn i train_x_kg) (firstn i train_obj_kg))
       checkpoints,
   map (fun i => tsum (cost_callable (firstn i train_x_kg))) checkpoints).

(** MOMF is evaluated after every evaluation, on the two problem objectives
    only: [hvs_momf] and [costs_momf]. *)
Definition evaluate_momf (MF_n_INIT : nat) (train_x_momf train_obj_momf : tensor)
  : list R * list R :=
  let checkpoints := range3 MF_n_INIT (length train_x_momf + 1) 1 in
  (map (fun i => hypervolume_of (firstn i train_x_momf)
                                (take_cols 2 (firstn i train_obj_momf)))
       checkpoints,
   map (fun i => tsum (cost_callable (firstn i train_x_momf))) checkpoints).

(** qNEHVI is evaluated after every evaluation, from its two initial points
    on, the model seeing the design coordinates only: [hvs_qnehvi] and
    [costs_qnehvi]. *)
Definition evaluate_qnehvi (train_x_qnehvi train_obj_qnehvi : tensor)
  : list R * list R :=
  let checkpoints := range3 2 (length train_x_qnehvi + 1) 1 in
  (map (fun i => hypervolume_of (take_cols 2 (firstn i train_x_qnehvi))
                                (firstn i train_obj_qnehvi))
       checkpoints,
   map (fun i => tsum (cost_callable (firstn i train_x_qnehvi))) checkpoints).
End Evaluation.

(** A point as the sampler produces it: within the unit box, at a fidelity
    strictly below the target fidelity. *)
Definition sampled_point (d : nat) (r : row) : Prop :=
  in_unit_box d r /\ 0 <= last_coord r < 1.

(** The dataset of a loop is consistent when the ledger is the cost of the
    design points and the observations are [observe] of the design points. *)
Definition consistent_state (observe : tensor -> tensor) (st : loop_state) : Prop :=
  total_cost st = tsum (cost_callable (train_x st)) /\
  train_obj st = observe (train_x st).

(** One iteration that evaluates a single point: the step appends exactly
    one design point, whose cost lies between the cheapest and the full
    fidelity evaluation. *)
Definition single_evaluation_step (step : loop_state -> loop_state) : Prop :=
  forall st,
    iteration (step st) = S (iteration st) /\
    length (train_x (step st)) = S (length (train_x st)) /\
    total_cost st + 1 <= total_cost (step st) <= total_cost st + cost_func 1.

(** * Properties *)

(** ** Cost model *)

Lemma cost_func_pos x : 0 < cost_func x.
Proof. apply exp_pos. Qed.

Lemma cost_func_0 : cost_func 0 = 1.
Proof. unfold cost_func. rewrite Rmult_0_r. apply exp_0. Qed.

Lemma cost_func_1 : cost_func 1 = exp 4.8.
Proof. unfold cost_func. now rewrite Rmult_1_r. Qed.

Lemma cost_func_increasing x y : x < y -> cost_func x < cost_func y.
Proof. intros H. apply exp_increasing. lra. Qed.

Lemma cost_func_ge_1 x : 0 <= x -> 1 <= cost_func x.
Proof.
  intros [H | <-].
  - rewrite <- cost_func_0. left. now apply cost_func_increasing.
  - rewrite cost_func_0. lra.
Qed.

Lemma cost_callable_row (r : row) (X : tensor) :
  r <> [] ->
  cost_callable (r :: X) = [cost_func (last_coord r)] :: cost_callable X.
Proof. destruct r; [congruence | reflexivity]. Qed.

(** ** Inverse transform *)

Lemma exp_rate_gt_1 : 1 < exp (24 / 5).
Proof.
  assert (H : 1 + 24 / 5 < exp (24 / 5)) by (apply exp_ineq1; lra).
  lra.
Qed.

Lemma exp_neg_rate : exp (- 4.8) = / exp (24 / 5).
Proof. rewrite <- exp_Ropp. f_equal. lra. Qed.

Lemma exp_neg_rate_bounds : 0 < exp (- 4.8) < 1.
Proof.
  split; [apply exp_pos |].
  rewrite exp_neg_rate, <- Rinv_1.
  apply Rinv_lt_contravar; [| apply exp_rate_gt_1].
  pose proof exp_rate_gt_1. lra.
Qed.

(** The argument of the logarithm in the closed form stays positive up to
    (and including) [u = 1]. *)
Lemma closed_form_arg_pos u : u <= 1 -> 0 < 1 - u * (1 - exp (- 4.8)).
Proof.
  intros Hu. pose proof exp_neg_rate_bounds as [H0 H1]. nra.
Qed.

Lemma inv_transform_closed_form u :
  u <= 1 -> inv_transform u = - ln (1 - u * (1 - exp (- 4.8))) / 4.8.
Proof.
  intros Hu. unfold inv_transform.
  pose proof (closed_form_arg_pos u Hu) as Hpos.
  pose proof exp_rate_gt_1 as HE.
  rewrite exp_neg_rate in *.
  set (E := exp (24 / 5)) in *.
  assert (HEpos : 0 < E) by lra.
  assert (Hden : 1 - u * (1 - / E) = (E - (E - 1) * u) / E) by (field; lra).
  assert (Hden_pos : 0 < E - (E - 1) * u).
  { rewrite Hden in Hpos.
    apply (Rmult_lt_compat_r E) in Hpos; [| lra].
    unfold Rdiv in Hpos. rewrite Rmult_assoc, Rinv_l in Hpos; lra. }
  replace (- E / (E * u - u - E)) with (/ (1 - u * (1 - / E))) by (field; lra).
  rewrite ln_Rinv by assumption. lra.
Qed.

Lemma inv_transform_0 : inv_transform 0 = 0.
Proof.
  rewrite inv_transform_closed_form by lra.
  rewrite Rmult_0_l, Rminus_0_r, ln_1. lra.
Qed.

Lemma inv_transform_1 : inv_transform 1 = 1.
Proof.
  rewrite inv_transform_closed_form by lra.
  replace (1 - 1 * (1 - exp (- 4.8))) with (exp (- 4.8)) by lra.
  rewrite ln_exp. lra.
Qed.

Lemma inv_transform_increasing u v :
  u < v -> v <= 1 -> inv_transform u < inv_transform v.
Proof.
  intros Huv Hv.
  rewrite !inv_transform_closed_form by lra.
  pose proof exp_neg_rate_bounds as [H0 H1].
  assert (Hln : ln (1 - v * (1 - exp (- 4.8))) < ln (1 - u * (1 - exp (- 4.8)))).
  { apply ln_increasing; [now apply closed_form_arg_pos | nra]. }
  lra.
Qed.

Lemma inv_transform_mono u v :
  u <= v -> v <= 1 -> inv_transform u <= inv_transform v.
Proof.
  intros [Huv | ->] Hv; [left; now apply inv_transform_increasing | right; reflexivity].
Qed.

Lemma inv_transform_range u : 0 <= u <= 1 -> 0 <= inv_transform u <= 1.
Proof.
  intros [H0 H1]. split.
  - rewrite <- inv_transform_0. apply inv_transform_mono; lra.
  - rewrite <- inv_transform_1. apply inv_transform_mono; lra.
Qed.

(** Draws of [torch.rand] lie in [[0, 1)]: the transformed fidelity then
    stays strictly below the target fidelity. *)
Lemma inv_transform_lt_1 u : 0 <= u < 1 -> 0 <= inv_transform u < 1.
Proof.
  intros [H0 H1]. split.
  - apply inv_transform_range. lra.
  - rewrite <- inv_transform_1. apply inv_transform_increasing; lra.
Qed.

Lemma fidelity_cdf_inv_transform u : u <= 1 -> fidelity_cdf (inv_transform u) = u.
Proof.
  intros Hu. rewrite inv_transform_closed_form by assumption.
  unfold fidelity_cdf.
  replace (- 4.8 * (- ln (1 - u * (1 - exp (- 4.8))) / 4.8))
    with (ln (1 - u * (1 - exp (- 4.8)))) by lra.
  rewrite exp_ln by now apply closed_form_arg_pos.
  pose proof exp_neg_rate_bounds. field. lra.
Qed.

Lemma fidelity_cdf_le_1 s : s <= 1 -> fidelity_cdf s <= 1.
Proof.
  intros Hs. unfold fidelity_cdf.
  pose proof exp_neg_rate_bounds as [H0 H1].
  assert (He : exp (- 4.8) <= exp (- 4.8 * s)).
  { destruct Hs as [Hs | ->].
    - left. apply exp_increasing. lra.
    - right. f_equal. lra. }
  apply (Rmult_le_reg_r (1 - exp (- 4.8))); [lra |].
  unfold Rdiv. rewrite Rmult_assoc, Rinv_l; lra.
Qed.

Lemma inv_transform_fidelity_cdf s : s <= 1 -> inv_transform (fidelity_cdf s) = s.
Proof.
  intros Hs.
  rewrite inv_transform_closed_form by now apply fidelity_cdf_le_1.
  unfold fidelity_cdf. pose proof exp_neg_rate_bounds.
  replace (1 - (1 - exp (- 4.8 * s)) / (1 - exp (- 4.8)) * (1 - exp (- 4.8)))
    with (exp (- 4.8 * s)) by (field; lra).
  rewrite ln_exp. lra.
Qed.

Lemma fidelity_cdf_0 : fidelity_cdf 0 = 0.
Proof.
  unfold fidelity_cdf. rewrite Rmult_0_r, exp_0. lra.
Qed.

Lemma fidelity_cdf_1 : fidelity_cdf 1 = 1.
Proof.
  unfold fidelity_cdf. rewrite Rmult_1_r.
  pose proof exp_neg_rate_bounds. field. lra.
Qed.

(** The derivative of the distribution function is the density, which is a
    constant multiple of [1 / cost_func]. *)
Lemma fidelity_cdf_derivative s :
  derivable_pt_lim fidelity_cdf s (fidelity_pdf s).
Proof.
  assert (Hexp : derivable_pt_lim (fun x => exp (- 4.8 * x)) s
                   (exp (- 4.8 * s) * (- 4.8))).
  { apply (derivable_pt_lim_comp (fun x => - 4.8 * x) exp).
    - pose proof (derivable_pt_lim_scal id (- 4.8) s 1 (derivable_pt_lim_id s)) as Hlin.
      rewrite Rmult_1_r in Hlin. exact Hlin.
    - apply derivable_pt_lim_exp. }
  assert (Hnum : derivable_pt_lim (fun x => 1 - exp (- 4.8 * x)) s
                   (0 - exp (- 4.8 * s) * (- 4.8))).
  { apply (derivable_pt_lim_minus (fun _ => 1) (fun x => exp (- 4.8 * x))).
    - apply derivable_pt_lim_const.
    - exact Hexp. }
  pose proof exp_neg_rate_bounds.
  replace (fidelity_pdf s)
    with (/ (1 - exp (- 4.8)) * (0 - exp (- 4.8 * s) * (- 4.8))).
  - apply (derivable_pt_lim_ext
             (mult_real_fct (/ (1 - exp (- 4.8))) (fun x => 1 - exp (- 4.8 * x)))).
    + intros x. unfold mult_real_fct, fidelity_cdf. cbv beta. field. lra.
    + now apply derivable_pt_lim_scal.
  - unfold fidelity_pdf, cost_func.
    replace (- 4.8 * s) with (- (4.8 * s)) by lra.
    rewrite exp_Ropp.
    replace (- 4.8) with (- (24 / 5)) in * by lra.
    replace 4.8 with (24 / 5) by lra.
    field. split; [apply Rgt_not_eq, exp_pos | lra].
Qed.

(** C2.  [inv_transform] is the closed-form inverse of the distribution
    function of the density proportional to [1 / cost_func] on [[0, 1]]: it
    maps [[0, 1]] into [[0, 1]], is strictly increasing there, sends [0] to
    [0] and [1] to [1], equals [- ln (1 - u (1 - e^(-4.8))) / 4.8], and is
    the two-sided inverse of [F s = (1 - e^(-4.8 s)) / (1 - e^(-4.8))], whose
    derivative is a constant times [1 / cost_func s]. *)
Theorem inv_transform_inverse_cdf :
  (forall u, 0 <= u <= 1 -> 0 <= inv_transform u <= 1) /\
  (forall u v, 0 <= u -> u < v -> v <= 1 -> inv_transform u < inv_transform v) /\
  inv_transform 0 = 0 /\
  inv_transform 1 = 1 /\
  (forall u, 0 <= u <= 1 ->
     inv_transform u = - ln (1 - u * (1 - exp (- 4.8))) / 4.8) /\
  (forall u, 0 <= u <= 1 -> fidelity_cdf (inv_transform u) = u) /\
  (forall s, 0 <= s <= 1 -> inv_transform (fidelity_cdf s) = s) /\
  fidelity_cdf 0 = 0 /\
  fidelity_cdf 1 = 1 /\
  (forall s, derivable_pt_lim fidelity_cdf s (fidelity_pdf s)) /\
  (forall s, fidelity_pdf s * cost_func s = 4.8 / (1 - exp (- 4.8))).
Proof.
  repeat split.
  - now apply inv_transform_range.
  - now apply inv_transform_range.
  - intros u v _ Huv Hv. now apply inv_transform_increasing.
  - exact inv_transform_0.
  - exact inv_transform_1.
  - intros u [_ Hu]. now apply inv_transform_closed_form.
  - intros u [_ Hu]. now apply fidelity_cdf_inv_transform.
  - intros s [_ Hs]. now apply inv_transform_fidelity_cdf.
  - exact fidelity_cdf_0.
  - exact fidelity_cdf_1.
  - exact fidelity_cdf_derivative.
  - intros s. unfold fidelity_pdf. pose proof (cost_func_pos s).
    rewrite Rmult_assoc, Rinv_l; lra.
Qed.

Lemma inv_transform_inverse_cdf_witness :
  0 <= inv_transform (1 / 2) <= 1 /\ fidelity_cdf (inv_transform (1 / 2)) = 1 / 2.
Proof.
  split.
  - apply (proj1 inv_transform_inverse_cdf). lra.
  - apply inv_transform_inverse_cdf. lra.
Defined.

(** C3.  The cost model is [cost(s) = exp (4.8 s)]: [cost 0 = 1],
    [cost 1 = exp 4.8], the cost is positive and strictly increasing in the
    fidelity, and [cost_callable] applies it to the last coordinate of every
    row. *)
Theorem cost_model_contract :
  (forall s, cost_func s = exp (4.8 * s)) /\
  cost_func 0 = 1 /\
  cost_func 1 = exp 4.8 /\
  (forall s, 0 < cost_func s) /\
  (forall s t, s < t -> cost_func s < cost_func t) /\
  (forall X : tensor,
     Forall (fun r => r <> []) X ->
     cost_callable X = map (fun r => [exp (4.8 * last_coord r)]) X).
Proof.
  repeat split.
  - exact cost_func_0.
  - exact cost_func_1.
  - exact cost_func_pos.
  - exact cost_func_increasing.
  - intros X HX. induction HX as [| r X Hr _ IH]; [reflexivity |].
    rewrite cost_callable_row by assumption. cbn [map]. now rewrite IH.
Qed.

Lemma cost_model_contract_witness :
  cost_func 0 < cost_func 1 /\
  cost_callable [[0; 0; 1]] = [[exp (4.8 * 1)]].
Proof.
  split.
  - apply cost_model_contract. lra.
  - apply (proj2 (proj2 (proj2 (proj2 (proj2 cost_model_contract)))) [[0; 0; 1]]).
    repeat constructor; discriminate.
Defined.

(** ** Tensor bookkeeping *)

Lemma tsum_app (X Y : tensor) : tsum (X ++ Y) = tsum X + tsum Y.
Proof.
  induction X as [| r X IH]; cbn [app].
  - change (tsum []) with 0. lra.
  - change (tsum (r :: X ++ Y)) with (row_sum r + tsum (X ++ Y)).
    change (tsum (r :: X)) with (row_sum r + tsum X).
    rewrite IH. lra.
Qed.

Lemma cost_callable_app (X Y : tensor) :
  cost_callable (X ++ Y) = cost_callable X ++ cost_callable Y.
Proof. apply map_app. Qed.

Lemma last_coord_set_last v r : last_coord (set_last v r) = v.
Proof. unfold last_coord, set_last. apply last_last. Qed.

Lemma set_last_nonempty v r : set_last v r <> [].
Proof. unfold set_last. destruct (removelast r); discriminate. Qed.

Lemma cost_callable_set_last v r :
  cost_callable [set_last v r] = [[cost_func v]].
Proof.
  rewrite cost_callable_row by apply set_last_nonempty.
  now rewrite last_coord_set_last.
Qed.

Lemma last_Forall {A} (P : A -> Prop) (l : list A) (d : A) :
  Forall P l -> P d -> P (last l d).
Proof.
  intros Hl Hd. induction Hl as [| a l Ha Hl IH]; [assumption |].
  destruct l; [assumption | exact IH].
Qed.

Lemma tsum_cost_nonneg (X : tensor) : 0 <= tsum (cost_callable X).
Proof.
  induction X as [| r X IH]; [change (tsum (cost_callable [])) with 0; lra |].
  change (tsum (cost_callable (r :: X)))
    with (row_sum (map cost_func (last_slice r)) + tsum (cost_callable X)).
  destruct r as [| a r]; cbn [last_slice map row_sum fold_right].
  - lra.
  - pose proof (cost_func_pos (last (a :: r) 0)). lra.
Qed.

(** ** The sampler *)

Lemma total_cost_limit_eq (dim_x : nat) (n : R) :
  (0 < dim_x)%nat -> total_cost_limit dim_x n = n * cost_func 1.
Proof.
  intros Hd. unfold total_cost_limit, ones. cbn [repeat].
  destruct dim_x as [| d]; [lia |].
  rewrite cost_callable_row by discriminate.
  cbn [cost_callable map item]. f_equal. f_equal.
  unfold last_coord. clear. induction d as [| d IH]; [reflexivity |].
  cbn [repeat] in *. destruct (repeat 1 d); [reflexivity | exact IH].
Qed.

Lemma up_fuel_enough (r : R) : r <= INR (Z.to_nat (up r)).
Proof.
  destruct (archimed r) as [Hup _].
  destruct (Rle_lt_dec r 0) as [Hle | Hpos].
  - pose proof (pos_INR (Z.to_nat (up r))). lra.
  - assert (Hz : (0 < up r)%Z) by (apply lt_IZR; lra).
    rewrite INR_IZR_INZ, Z2Nat.id by lia. lra.
Qed.

Section SamplerFacts.
Variable u : nat -> R.
Variable BC : row -> row.
Variable dim_x : nat.

Let limit := total_cost_limit dim_x.
Let loop := gen_init_loop u dim_x.

(** One draw yields exactly one row, whose fidelity is [inv_transform] of
    the uniform that was drawn for it. *)
Lemma draw_point_eq g :
  draw_point u dim_x g =
  ([set_last (inv_transform (last_coord (map u (seq (g + 0 * dim_x) dim_x))))
             (map u (seq (g + 0 * dim_x) dim_x))],
   (g + 1 * dim_x)%nat).
Proof. reflexivity. Qed.

Lemma draw_point_cost g :
  item (cost_callable (fst (draw_point u dim_x g))) =
  cost_func (inv_transform (last_coord (map u (seq (g + 0 * dim_x) dim_x)))).
Proof. rewrite draw_point_eq. cbn [fst]. now rewrite cost_callable_set_last. Qed.

Lemma draw_point_tsum g :
  tsum (cost_callable (fst (draw_point u dim_x g))) =
  item (cost_callable (fst (draw_point u dim_x g))).
Proof.
  rewrite draw_point_eq. cbn [fst]. rewrite cost_callable_set_last.
  change (tsum [[?c]]) with (c + 0 + 0). cbn [item]. lra.
Qed.

Lemma draw_point_cost_ge_1 g :
  (forall i, 0 <= u i < 1) ->
  1 <= item (cost_callable (fst (draw_point u dim_x g))).
Proof.
  intros Hu. rewrite draw_point_cost.
  apply cost_func_ge_1, inv_transform_range.
  apply (last_Forall (fun x => 0 <= x <= 1)); [| lra].
  apply Forall_map, Forall_forall. intros i _. specialize (Hu i). lra.
Qed.

(** What the loop returns: if it is entered, the rows drawn are a
    non-empty extension of the initial rows whose last row made the running
    total reach the limit, and without that row the total is below it. *)
Lemma gen_init_loop_spec fuel :
  forall n g total tx res g',
    loop fuel n g total tx = Some (res, g') ->
    total = tsum (cost_callable tx) ->
    (total < limit n ->
     exists kept x,
       res = kept ++ [x] /\
       tsum (cost_callable kept) < limit n /\
       limit n <= tsum (cost_callable res)) /\
    (~ total < limit n -> res = tx /\ g' = g).
Proof.
  subst loop. induction fuel as [| fuel IH]; intros n g total tx res g' Hrun Htot;
    cbn [gen_init_loop] in Hrun; [discriminate |].
  fold limit in Hrun.
  destruct (Rlt_dec total (limit n)) as [Hlt | Hge].
  - split; [intros _ | contradiction].
    pose proof (draw_point_tsum g) as Hsum.
    rewrite draw_point_eq in Hrun, Hsum. cbn [fst] in Hsum.
    set (x := set_last _ _) in *.
    specialize (IH _ _ _ _ _ _ Hrun).
    rewrite cost_callable_app, tsum_app, Hsum, <- Htot in IH.
    specialize (IH eq_refl) as [IHlt IHge].
    destruct (Rlt_dec (total + item (cost_callable [x])) (limit n)) as [Hlt' | Hge'].
    + exact (IHlt Hlt').
    + destruct (IHge Hge') as [-> _].
      exists tx, x. split; [reflexivity |]. split; [lra |].
      rewrite cost_callable_app, tsum_app, Hsum, <- Htot. lra.
  - split; [contradiction | intros _].
    injection Hrun as <- <-. now split.
Qed.

Lemma gen_init_loop_terminates fuel :
  (forall i, 0 <= u i < 1) ->
  forall n g total tx,
    limit n - total <= INR fuel ->
    exists res g', loop (S fuel) n g total tx = Some (res, g').
Proof.
  intros Hu. subst loop. induction fuel as [| fuel IH]; intros n g total tx Hfuel.
  - cbn [gen_init_loop]. fold limit. cbn [INR] in Hfuel.
    destruct (Rlt_dec total (limit n)); [lra | now eauto].
  - cbn [gen_init_loop]. fold limit.
    destruct (Rlt_dec total (limit n)) as [Hlt | Hge]; [| now eauto].
    pose proof (draw_point_cost_ge_1 g Hu) as Hc.
    destruct (draw_point u dim_x g) as [new_x g1]. cbn [fst] in Hc.
    apply IH. rewrite S_INR in Hfuel. lra.
Qed.

Lemma gen_init_loop_fuel_mono fuel :
  forall n g total tx r,
    loop fuel n g total tx = Some r ->
    forall extra, loop (fuel + extra) n g total tx = Some r.
Proof.
  subst loop. induction fuel as [| fuel IH]; intros n g total tx r Hrun extra;
    cbn [gen_init_loop Nat.add] in *; [discriminate |].
  destruct (Rlt_dec total (total_cost_limit dim_x n)); [| assumption].
  destruct (draw_point u dim_x g). now apply IH.
Qed.

End SamplerFacts.

(** C1.  For a budget [n > 0], [gen_init_data n] returns, and the total cost
    of the rows it returns is at most [n * cost 1], indeed strictly below
    it: the rows returned are the rows drawn without the last one, and the
    last one is the draw that made the running total reach the budget. *)
Theorem gen_init_data_within_budget
        (u : nat -> R) (BC : row -> row) (dim_x : nat) (n : R) (g : nat) :
  (0 < dim_x)%nat ->
  0 < n ->
  (forall i, 0 <= u i < 1) ->
  (exists train_x train_obj,
      gen_init_data u BC dim_x (sampler_fuel dim_x n) n g
      = Some (train_x, train_obj)) /\
  (forall fuel train_x train_obj,
      gen_init_data u BC dim_x fuel n g = Some (train_x, train_obj) ->
      tsum (cost_callable train_x) <= n * cost_func 1 /\
      tsum (cost_callable train_x) < n * cost_func 1 /\
      train_obj = map BC train_x /\
      exists overshoot g',
        gen_init_loop u dim_x fuel n g 0 [] = Some (train_x ++ [overshoot], g') /\
        n * cost_func 1 <= tsum (cost_callable (train_x ++ [overshoot]))).
Proof.
  intros Hd Hn Hu.
  assert (Hlim : 0 < total_cost_limit dim_x n).
  { rewrite total_cost_limit_eq by assumption.
    apply Rmult_lt_0_compat; [assumption | apply cost_func_pos]. }
  assert (Hspec : forall fuel drawn g',
             gen_init_loop u dim_x fuel n g 0 [] = Some (drawn, g') ->
             exists kept x,
               drawn = kept ++ [x] /\
               tsum (cost_callable kept) < n * cost_func 1 /\
               n * cost_func 1 <= tsum (cost_callable drawn)).
  { intros fuel drawn g' Hrun.
    destruct (gen_init_loop_spec u dim_x fuel n g 0 [] drawn g' Hrun eq_refl)
      as [Hentered _].
    rewrite <- (total_cost_limit_eq dim_x n Hd). now apply Hentered. }
  split.
  - assert (Hfuel : total_cost_limit dim_x n - 0
                    <= INR (Z.to_nat (up (total_cost_limit dim_x n)))).
    { rewrite Rminus_0_r. apply up_fuel_enough. }
    destruct (gen_init_loop_terminates u dim_x _ Hu n g 0 [] Hfuel)
      as (drawn & g' & Hrun).
    unfold gen_init_data, sampler_fuel. rewrite Hrun. now eauto.
  - intros fuel train_x train_obj Hdata. unfold gen_init_data in Hdata.
    destruct (gen_init_loop u dim_x fuel n g 0 []) as [[drawn g'] |] eqn:Hrun;
      [| discriminate].
    destruct (Hspec _ _ _ Hrun) as (kept & x & -> & Hlt & Hge).
    rewrite removelast_last in Hdata. injection Hdata as <- <-.
    repeat split; [lra | assumption |]. now exists x, g'.
Qed.

Lemma gen_init_data_within_budget_witness :
  exists train_x train_obj,
    gen_init_data (fun _ => 0) (fun r => r) 3 (sampler_fuel 3 2) 2 0
    = Some (train_x, train_obj).
Proof.
  apply (gen_init_data_within_budget (fun _ => 0) (fun r => r) 3 2 0).
  - lia.
  - lra.
  - intros i. lra.
Defined.

(** C4.  When the first point drawn already costs at least the whole budget
    [n * cost 1], [gen_init_data n] returns the empty dataset (no design
    point, no observation); it does so after that single draw, without
    drawing again. *)
Theorem gen_init_data_first_draw_overshoot
        (u : nat -> R) (BC : row -> row) (dim_x : nat) (n : R) (g fuel : nat) :
  (0 < dim_x)%nat ->
  0 < n ->
  n * cost_func 1 <= item (cost_callable (fst (draw_point u dim_x g))) ->
  gen_init_data u BC dim_x (S (S fuel)) n g = Some ([], []) /\
  gen_init_loop u dim_x (S (S fuel)) n g 0 []
  = Some (fst (draw_point u dim_x g), (g + dim_x)%nat).
Proof.
  intros Hd Hn Hcost.
  rewrite <- (total_cost_limit_eq dim_x n Hd) in Hcost.
  assert (Hlim : 0 < total_cost_limit dim_x n).
  { rewrite total_cost_limit_eq by assumption.
    apply Rmult_lt_0_compat; [assumption | apply cost_func_pos]. }
  assert (Hloop : gen_init_loop u dim_x (S (S fuel)) n g 0 []
                  = Some (fst (draw_point u dim_x g), (g + dim_x)%nat)).
  { cbn [gen_init_loop].
    destruct (Rlt_dec 0 (total_cost_limit dim_x n)) as [_ | Hno]; [| contradiction].
    rewrite draw_point_eq in *. cbn [fst] in *. cbn [app].
    destruct (Rlt_dec _ (total_cost_limit dim_x n)) as [Hlt | _]; [lra |].
    do 3 f_equal. lia. }
  split; [| exact Hloop].
  unfold gen_init_data. rewrite Hloop, draw_point_eq. reflexivity.
Qed.

Lemma gen_init_data_first_draw_overshoot_witness :
  gen_init_data (fun _ => 0) (fun r => r) 3 2 (/ exp 4.8) 0 = Some ([], []).
Proof.
  apply (gen_init_data_first_draw_overshoot (fun _ => 0) (fun r => r) 3 (/ exp 4.8) 0 0).
  - lia.
  - apply Rinv_0_lt_compat, exp_pos.
  - rewrite draw_point_cost. cbn [Nat.mul Nat.add seq map].
    change (last_coord [0; 0; 0]) with 0.
    rewrite inv_transform_0, cost_func_0, cost_func_1, Rinv_l; [lra |].
    apply Rgt_not_eq, exp_pos.
Defined.

(** ** The optimisation loops *)

Lemma set_last_length v (r : row) : r <> [] -> length (set_last v r) = length r.
Proof.
  intros Hr. unfold set_last.
  destruct (exists_last Hr) as (l & a & ->).
  now rewrite removelast_last, !length_app.
Qed.

(** The last coordinate of an unnormalized row is the unnormalized last
    coordinate, when the row has one coordinate per bound. *)
Lemma last_coord_unnormalize_row (r lb ub : row) :
  r <> [] -> length lb = length r -> length ub = length r ->
  last_coord (unnormalize_row (lb, ub) r)
  = last_coord r * (last_coord ub - last_coord lb) + last_coord lb.
Proof.
  unfold unnormalize_row, last_coord. cbn [fst snd].
  revert lb ub. induction r as [| x r IH]; intros lb ub Hr Hlb Hub; [congruence |].
  destruct lb as [| l lb]; [discriminate |]. destruct ub as [| h ub]; [discriminate |].
  destruct r as [| y r].
  - destruct lb; [| discriminate]. destruct ub; [| discriminate]. reflexivity.
  - destruct lb as [| l' lb]; [discriminate |].
    destruct ub as [| h' ub]; [discriminate |].
    cbn [length] in Hlb, Hub.
    specialize (IH (l' :: lb) (h' :: ub)).
    cbn [combine map last] in *. apply IH; [discriminate | cbn; lia | cbn; lia].
Qed.

Lemma unnormalize_row_nonempty (r lb ub : row) :
  r <> [] -> length lb = length r -> length ub = length r ->
  unnormalize_row (lb, ub) r <> [].
Proof.
  destruct r, lb, ub; cbn; try congruence; discriminate.
Qed.

Lemma last_coord_repeat v (d : nat) : (0 < d)%nat -> last_coord (repeat v d) = v.
Proof.
  unfold last_coord. induction d as [| d IH]; [lia |]. intros _.
  destruct d as [| d]; [reflexivity |].
  cbn [repeat] in *. cbn [last]. apply IH. lia.
Qed.

Lemma tsum_cost_ge_1 (X : tensor) :
  X <> [] ->
  Forall (fun r => r <> [] /\ 0 <= last_coord r) X ->
  1 <= tsum (cost_callable X).
Proof.
  intros HX HF. destruct X as [| r X]; [congruence |].
  apply Forall_inv in HF. destruct HF as [Hr Hfid].
  rewrite cost_callable_row by assumption.
  change (tsum (?c :: ?Y)) with (row_sum c + tsum Y).
  pose proof (tsum_cost_nonneg X). pose proof (cost_func_ge_1 _ Hfid).
  cbn [row_sum fold_right]. lra.
Qed.

Lemma zero_value_guard_rows (d : nat) (c : tensor) (v : R) :
  (0 < d)%nat ->
  Forall (in_unit_box d) c ->
  Forall (fun r => r <> [] /\ length r = d /\ 0 <= last_coord r <= 1)
         (zero_value_guard c v).
Proof.
  intros Hd Hc. unfold zero_value_guard, set_last_col.
  assert (Hrow : forall r, in_unit_box d r ->
                           r <> [] /\ length r = d /\ 0 <= last_coord r <= 1).
  { intros r [Hlen Hbox]. repeat split; try assumption.
    - intros ->. cbn in Hlen. lia.
    - apply (last_Forall (fun x => 0 <= x <= 1) r 0 Hbox). lra.
    - apply (last_Forall (fun x => 0 <= x <= 1) r 0 Hbox). lra. }
  destruct (Req_dec_T v 0).
  - apply Forall_map. eapply Forall_impl; [| exact Hc].
    intros r Hr. destruct (Hrow r Hr) as (Hne & Hlen & _).
    rewrite last_coord_set_last, set_last_length by assumption.
    repeat split; [apply set_last_nonempty | assumption | lra | lra].
  - eapply Forall_impl; [| exact Hc]. exact Hrow.
Qed.

Lemma zero_value_guard_length c v : length (zero_value_guard c v) = length c.
Proof.
  unfold zero_value_guard, set_last_col.
  destruct (Req_dec_T v 0); [apply length_map | reflexivity].
Qed.

Lemma cat_cols_map {A} (f g : A -> row) (l : list A) :
  cat_cols (map f l) (map g l) = map (fun a => f a ++ g a) l.
Proof.
  unfold cat_cols. induction l as [| a l IH]; [reflexivity |].
  cbn [map combine fst snd] in *. now rewrite IH.
Qed.

Lemma standard_bounds_ok (d : nat) : (0 < d)%nat -> fidelity_bounds_ok d (standard_bounds d).
Proof.
  intros Hd. unfold fidelity_bounds_ok, standard_bounds. cbn [fst snd].
  rewrite !repeat_length, !last_coord_repeat by assumption.
  repeat split; lra.
Qed.

Lemma unnormalize_cost_ge_1 (d : nat) (b : bounds) (cands : tensor) :
  fidelity_bounds_ok d b ->
  cands <> [] ->
  Forall (fun r => r <> [] /\ length r = d /\ 0 <= last_coord r <= 1) cands ->
  1 <= tsum (cost_callable (unnormalize cands b)).
Proof.
  intros (Hlb & Hub & Hfid) Hne Hrows. destruct b as [lb ub]. cbn [fst snd] in *.
  apply tsum_cost_ge_1.
  - destruct cands; [congruence | discriminate].
  - apply Forall_map. eapply Forall_impl; [| exact Hrows].
    intros r (Hr & Hlen & Hlast). split.
    + apply unnormalize_row_nonempty; congruence.
    + rewrite last_coord_unnormalize_row by congruence. nra.
Qed.

Lemma cat_cols_ones_fidelity (X : tensor) (q : nat) :
  Forall (fun r => last_coord r = 1) (cat_cols X (ones q 1)).
Proof.
  unfold cat_cols, ones. cbn [repeat]. revert q.
  induction X as [| r X IH]; intros q; [constructor |].
  destruct q as [| q]; [constructor |].
  cbn [repeat combine map fst snd]. constructor; [| apply IH].
  unfold last_coord. apply last_last.
Qed.

Lemma length_nonempty {A} (l : list A) (n : nat) : length l = S n -> l <> [].
Proof. destruct l; [discriminate | congruence]. Qed.

Section StepFacts.
Variable BC : row -> row.
Variable BC_bounds : bounds.
Variable dim_x : nat.
Variable acq : acquisition.

Lemma guarded_candidates_rows it tx tobj :
  (0 < dim_x)%nat ->
  acq_in_bounds dim_x acq ->
  guarded_candidates acq it tx tobj <> [] /\
  Forall (fun r => r <> [] /\ length r = dim_x /\ 0 <= last_coord r <= 1)
         (guarded_candidates acq it tx tobj).
Proof.
  intros Hd Hacq. unfold guarded_candidates.
  destruct (Hacq it tx tobj) as [Hlen Hbox].
  destruct (acq it tx tobj) as [cands vals]. cbn [fst] in *. split.
  - apply (length_nonempty _ 0). now rewrite zero_value_guard_length.
  - now apply zero_value_guard_rows.
Qed.

Lemma momf_step_cost st :
  (0 < dim_x)%nat ->
  acq_in_bounds dim_x acq ->
  total_cost st + 1 <= total_cost (momf_step BC dim_x acq st).
Proof.
  intros Hd Hacq. unfold momf_step, update, optimize_MOMF_and_get_obs.
  cbn [total_cost fst].
  destruct (guarded_candidates_rows (iteration st) (train_x st) (train_obj st) Hd Hacq)
    as [Hne Hrows].
  pose proof (unnormalize_cost_ge_1 dim_x _ _ (standard_bounds_ok dim_x Hd) Hne Hrows).
  lra.
Qed.

Lemma kg_step_cost st :
  (0 < dim_x)%nat ->
  acq_in_bounds dim_x acq ->
  fidelity_bounds_ok dim_x BC_bounds ->
  total_cost st + 1 <= total_cost (kg_step BC BC_bounds acq st).
Proof.
  intros Hd Hacq Hb. unfold kg_step, update, optimize_HVKG_and_get_obs.
  cbn [total_cost fst].
  destruct (guarded_candidates_rows (iteration st) (train_x st) (train_obj st) Hd Hacq)
    as [Hne Hrows].
  pose proof (unnormalize_cost_ge_1 dim_x _ _ Hb Hne Hrows). lra.
Qed.

Lemma qnehvi_new_x_fidelity it tx tobj b q :
  Forall (fun r => last_coord r = 1)
         (fst (optimize_qNEHVI_and_get_obs BC acq it tx tobj b q)).
Proof.
  unfold optimize_qNEHVI_and_get_obs. destruct (acq it tx tobj) as [cands vals].
  cbn [fst]. apply cat_cols_ones_fidelity.
Qed.

Lemma qnehvi_step_cost st :
  (forall it tx tobj, length (fst (acq it tx tobj)) = BATCH_SIZE) ->
  total_cost st + 1 <= total_cost (qnehvi_step BC dim_x acq st).
Proof.
  intros Hacq. unfold qnehvi_step, update. cbn [total_cost].
  pose proof (qnehvi_new_x_fidelity (iteration st) (take_cols 2 (train_x st))
                (train_obj st) (bounds_take 2 (standard_bounds dim_x)) BATCH_SIZE) as Hfid.
  set (new := optimize_qNEHVI_and_get_obs _ _ _ _ _ _ _) in *.
  enough (1 <= tsum (cost_callable (fst new))) by lra.
  apply tsum_cost_ge_1.
  - subst new. unfold optimize_qNEHVI_and_get_obs.
    specialize (Hacq (iteration st) (take_cols 2 (train_x st)) (train_obj st)).
    destruct (acq _ _ _) as [cands vals]. cbn [fst] in *.
    destruct cands as [| r cands]; [discriminate |]. discriminate.
  - eapply Forall_impl; [| exact Hfid]. intros r Hr. split; [| lra].
    intros ->. cbn in Hr. lra.
Qed.

(** No step lowers the ledger or touches what the dataset already holds. *)
Lemma update_extends st new : extends_state st (update st new).
Proof.
  unfold extends_state, update. cbn [total_cost train_x train_obj].
  pose proof (tsum_cost_nonneg (fst new)).
  rewrite !length_app, !firstn_app, !Nat.sub_diag, !firstn_all.
  cbn [firstn]. rewrite !app_nil_r. repeat split; try lia. lra.
Qed.
End StepFacts.

Lemma extends_state_refl st : extends_state st st.
Proof.
  unfold extends_state. rewrite !firstn_all. repeat split; try lia. lra.
Qed.

Lemma firstn_prefix_trans {A} (a b c : list A) :
  (length a <= length b)%nat ->
  firstn (length a) b = a -> firstn (length b) c = b ->
  firstn (length a) c = a.
Proof.
  intros Hlen Hab Hbc.
  rewrite <- Hbc, firstn_firstn in Hab.
  now replace (Nat.min (length a) (length b)) with (length a) in Hab by lia.
Qed.

Lemma extends_state_trans a b c :
  extends_state a b -> extends_state b c -> extends_state a c.
Proof.
  intros (Hc1 & Hx1 & Ho1 & Hpx1 & Hpo1) (Hc2 & Hx2 & Ho2 & Hpx2 & Hpo2).
  repeat split; try lia; try lra.
  - now apply (firstn_prefix_trans _ (train_x b)).
  - now apply (firstn_prefix_trans _ (train_obj b)).
Qed.

Section LoopRun.
Variable SMOKE_TEST : bool.
Variable step : loop_state -> loop_state.

Let budget := eval_budget SMOKE_TEST.
Let run := bo_loop SMOKE_TEST step.

(** A loop that returns has run some number [k] of iterations: the ledger
    was below the budget before each of them and is not below it after
    the last. *)
Lemma bo_loop_result fuel :
  forall st fin,
    run fuel st = Some fin ->
    exists k,
      (k < fuel)%nat /\
      fin = Nat.iter k step st /\
      budget <= total_cost fin /\
      forall j, (j < k)%nat -> total_cost (Nat.iter j step st) < budget.
Proof.
  subst run budget. induction fuel as [| fuel IH]; intros st fin Hrun;
    cbn [bo_loop] in Hrun; [discriminate |].
  destruct (Rlt_dec (total_cost st) (eval_budget SMOKE_TEST)) as [Hlt | Hge].
  - destruct (IH _ _ Hrun) as (k & Hk & Hfin & Hcost & Hbefore).
    exists (S k). rewrite Nat.iter_succ_r. repeat split; [lia | assumption.. |].
    intros [| j] Hj; [exact Hlt |].
    rewrite Nat.iter_succ_r. apply Hbefore. lia.
  - injection Hrun as <-. exists 0%nat.
    repeat split; [lia | lra | intros j Hj; lia].
Qed.

Lemma bo_loop_terminates :
  (forall st, total_cost st + 1 <= total_cost (step st)) ->
  forall fuel st,
    budget - total_cost st <= INR fuel ->
    exists fin, run (S fuel) st = Some fin.
Proof.
  intros Hstep. subst run budget. induction fuel as [| fuel IH]; intros st Hfuel.
  - cbn [bo_loop]. cbn [INR] in Hfuel.
    destruct (Rlt_dec (total_cost st) (eval_budget SMOKE_TEST)); [lra | now eauto].
  - cbn [bo_loop].
    destruct (Rlt_dec (total_cost st) (eval_budget SMOKE_TEST)); [| now eauto].
    apply IH. specialize (Hstep st). rewrite S_INR in Hfuel. lra.
Qed.

(** Termination of a loop each of whose iterations costs at least [1]. *)
Lemma bo_loop_total :
  (forall st, total_cost st + 1 <= total_cost (step st)) ->
  forall st0,
  exists k,
    run (loop_fuel SMOKE_TEST st0) st0 = Some (Nat.iter k step st0) /\
    (forall fuel fin, run fuel st0 = Some fin -> fin = Nat.iter k step st0) /\
    budget <= total_cost (Nat.iter k step st0) /\
    (forall j, (j < k)%nat -> total_cost (Nat.iter j step st0) < budget).
Proof.
  intros Hstep st0.
  destruct (bo_loop_terminates Hstep _ st0 (up_fuel_enough _)) as [fin Hrun].
  destruct (bo_loop_result _ _ _ Hrun) as (k & _ & -> & Hcost & Hbefore).
  exists k. repeat split; try assumption.
  intros fuel fin Hrun'.
  destruct (bo_loop_result _ _ _ Hrun') as (k' & _ & -> & Hcost' & Hbefore').
  destruct (Nat.lt_trichotomy k k') as [Hlt | [-> | Hgt]]; [| reflexivity |].
  - specialize (Hbefore' _ Hlt). lra.
  - specialize (Hbefore _ Hgt). lra.
Qed.

Lemma iter_extends :
  (forall st, extends_state st (step st)) ->
  forall st j k,
    (j <= k)%nat -> extends_state (Nat.iter j step st) (Nat.iter k step st).
Proof.
  intros Hstep st j k Hjk. induction Hjk as [| k Hjk IH].
  - apply extends_state_refl.
  - cbn [Nat.iter]. eapply extends_state_trans; [exact IH | apply Hstep].
Qed.
End LoopRun.

(** C6.  Each of the three loops terminates: every iteration adds at least
    [cost 0 = 1] to the accumulated cost, the loop runs while the accumulated
    cost is below [EVAL_BUDGET * cost 1], and it exits, after finitely many
    iterations, with an accumulated cost of at least [EVAL_BUDGET * cost 1].
    The acquisition optimiser is assumed to return [BATCH_SIZE] candidates
    within its bounds. *)
Theorem optimization_loops_terminate
        (SMOKE_TEST : bool) (BC : row -> row) (BC_bounds : bounds) (dim_x : nat)
        (acq_momf acq_kg acq_qnehvi : acquisition)
        (step : loop_state -> loop_state) :
  (0 < dim_x)%nat ->
  fidelity_bounds_ok dim_x BC_bounds ->
  acq_in_bounds dim_x acq_momf ->
  acq_in_bounds dim_x acq_kg ->
  acq_in_bounds 2 acq_qnehvi ->
  In step [momf_step BC dim_x acq_momf;
           kg_step BC BC_bounds acq_kg;
           qnehvi_step BC dim_x acq_qnehvi] ->
  (forall st, total_cost st + cost_func 0 <= total_cost (step st)) /\
  forall st0,
  exists k,
    bo_loop SMOKE_TEST step (loop_fuel SMOKE_TEST st0) st0
    = Some (Nat.iter k step st0) /\
    (forall fuel fin,
        bo_loop SMOKE_TEST step fuel st0 = Some fin -> fin = Nat.iter k step st0) /\
    EVAL_BUDGET SMOKE_TEST * cost_func 1 <= total_cost (Nat.iter k step st0) /\
    (forall j, (j < k)%nat ->
               total_cost (Nat.iter j step st0) < EVAL_BUDGET SMOKE_TEST * cost_func 1).
Proof.
  intros Hd Hb Hmomf Hkg Hq Hstep.
  assert (Hcost : forall st, total_cost st + 1 <= total_cost (step st)).
  { cbn [In] in Hstep. destruct Hstep as [<- | [<- | [<- | []]]]; intros st.
    - now apply momf_step_cost.
    - now apply kg_step_cost with (dim_x := dim_x).
    - apply qnehvi_step_cost. intros it tx tobj. apply Hq. }
  split.
  - intros st. rewrite cost_func_0. apply Hcost.
  - intros st0. exact (bo_loop_total SMOKE_TEST step Hcost st0).
Qed.

Lemma optimization_loops_terminate_witness :
  let step := momf_step (fun r => r) 3 (fun _ _ _ => ([[0; 0; 0]], 1)) in
  (forall st, total_cost st + cost_func 0 <= total_cost (step st)) /\
  forall st0,
  exists k,
    bo_loop true step (loop_fuel true st0) st0 = Some (Nat.iter k step st0) /\
    (forall fuel fin, bo_loop true step fuel st0 = Some fin -> fin = Nat.iter k step st0) /\
    EVAL_BUDGET true * cost_func 1 <= total_cost (Nat.iter k step st0) /\
    (forall j, (j < k)%nat ->
               total_cost (Nat.iter j step st0) < EVAL_BUDGET true * cost_func 1).
Proof.
  apply (optimization_loops_terminate
           true (fun r => r) ([0; 0; 0], [1; 1; 1]) 3
           (fun _ _ _ => ([[0; 0; 0]], 1)) (fun _ _ _ => ([[0; 0; 0]], 1))
           (fun _ _ _ => ([[0; 0]], 1))).
  - lia.
  - unfold fidelity_bounds_ok, last_coord. cbn. repeat split; lra.
  - intros it tx tobj. split; [reflexivity |].
    repeat constructor; lra.
  - intros it tx tobj. split; [reflexivity |].
    repeat constructor; lra.
  - intros it tx tobj. split; [reflexivity |].
    repeat constructor; lra.
  - left. reflexivity.
Defined.

(** C7.  In each of the three loops the cost ledger never decreases, the
    dataset never shrinks, and what was appended earlier is still there,
    unchanged, after any number of later iterations. *)
Theorem loops_grow_monotonically
        (BC : row -> row) (BC_bounds : bounds) (dim_x : nat)
        (acq_momf acq_kg acq_qnehvi : acquisition)
        (step : loop_state -> loop_state) :
  In step [momf_step BC dim_x acq_momf;
           kg_step BC BC_bounds acq_kg;
           qnehvi_step BC dim_x acq_qnehvi] ->
  (forall st j k,
      (j <= k)%nat -> extends_state (Nat.iter j step st) (Nat.iter k step st)) /\
  (forall SMOKE_TEST fuel st0 fin,
      bo_loop SMOKE_TEST step fuel st0 = Some fin -> extends_state st0 fin).
Proof.
  intros Hstep.
  assert (Hext : forall st, extends_state st (step st)).
  { cbn [In] in Hstep. destruct Hstep as [<- | [<- | [<- | []]]]; intros st;
      apply update_extends. }
  split.
  - now apply iter_extends.
  - intros SMOKE_TEST fuel st0 fin Hrun.
    destruct (bo_loop_result _ _ _ _ _ Hrun) as (k & _ & -> & _).
    apply (iter_extends step Hext st0 0 k). lia.
Qed.

Lemma loops_grow_monotonically_witness :
  extends_state
    (Nat.iter 1 (kg_step (fun r => r) ([0; 0; 0], [1; 1; 1])
                         (fun _ _ _ => ([[0; 0; 0]], 1)))
              {| train_x := []; train_obj := []; iteration := 0; total_cost := 0 |})
    (Nat.iter 4 (kg_step (fun r => r) ([0; 0; 0], [1; 1; 1])
                         (fun _ _ _ => ([[0; 0; 0]], 1)))
              {| train_x := []; train_obj := []; iteration := 0; total_cost := 0 |}).
Proof.
  apply (loops_grow_monotonically
           (fun r => r) ([0; 0; 0], [1; 1; 1]) 3
           (fun _ _ _ => ([[0; 0; 0]], 1)) (fun _ _ _ => ([[0; 0; 0]], 1))
           (fun _ _ _ => ([[0; 0]], 1))).
  - right. left. reflexivity.
  - lia.
Defined.

(** ** The qNEHVI baseline *)

Lemma qnehvi_new_obj (BC : row -> row) (acq : acquisition) it tx tobj b q :
  snd (optimize_qNEHVI_and_get_obs BC acq it tx tobj b q)
  = map BC (fst (optimize_qNEHVI_and_get_obs BC acq it tx tobj b q)).
Proof.
  unfold optimize_qNEHVI_and_get_obs. now destruct (acq it tx tobj).
Qed.

Lemma qnehvi_init_full_fidelity (u : nat -> R) (BC : row -> row) :
  at_full_fidelity BC (qnehvi_init u BC).
Proof.
  unfold at_full_fidelity, qnehvi_init, torch_rand, set_last_col.
  cbn [train_x train_obj]. split; [| reflexivity].
  apply Forall_map, Forall_forall. intros r _. apply last_coord_set_last.
Qed.

Lemma qnehvi_step_full_fidelity (BC : row -> row) (dim_x : nat) (acq : acquisition) st :
  at_full_fidelity BC st -> at_full_fidelity BC (qnehvi_step BC dim_x acq st).
Proof.
  intros [Hfid Hobj]. unfold at_full_fidelity, qnehvi_step, update.
  cbn [train_x train_obj]. split.
  - apply Forall_app. split; [assumption | apply qnehvi_new_x_fidelity].
  - now rewrite qnehvi_new_obj, map_app, Hobj.
Qed.

(** ** The zero-value rule *)


Lemma zero_value_guard_zero_length (d : nat) (c : tensor) (v : R) :
  (0 < d)%nat ->
  Forall (fun r => length r = d) c ->
  Forall (fun r => length r = d /\ r <> []) (zero_value_guard c v).
Proof.
  intros Hd Hc. unfold zero_value_guard, set_last_col.
  assert (Hne : forall r : row, length r = d -> r <> []).
  { intros r Hlen ->. cbn in Hlen. lia. }
  destruct (Req_dec_T v 0).
  - apply Forall_map. eapply Forall_impl; [| exact Hc]. intros r Hr.
    split; [rewrite set_last_length; auto | apply set_last_nonempty].
  - eapply Forall_impl; [| exact Hc]. auto.
Qed.






(** ** The non-domination filter *)

Lemma update_efficient_nth_from (v : row) (i : nat) :
  forall (Y : tensor) (m : list bool) (s j : nat),
    length m = length Y ->
    nth j (map (fun p : nat * (row * bool) =>
                  if snd (snd p)
                  then Nat.eqb (fst p) i || any_gt (fst (snd p)) v
                  else false)
               (combine (seq s (length Y)) (combine Y m))) false
    = nth j m false && (Nat.eqb (s + j) i || any_gt (nth j Y []) v).
Proof.
  induction Y as [| y Y IH]; intros m s j Hlen.
  - destruct m; [| discriminate]. now destruct j.
  - destruct m as [| b m]; [discriminate |].
    cbn [length seq combine map]. destruct j as [| j]; cbn [nth fst snd].
    + rewrite Nat.add_0_r. now destruct b.
    + rewrite IH by (cbn in Hlen; lia). now rewrite Nat.add_succ_r.
Qed.

Lemma update_efficient_nth (Y : tensor) (i : nat) (m : list bool) (j : nat) :
  length m = length Y ->
  nth j (update_efficient Y i m) false
  = nth j m false && (Nat.eqb j i || any_gt (nth j Y []) (nth i Y [])).
Proof.
  intros Hlen. unfold update_efficient.
  now rewrite update_efficient_nth_from.
Qed.

Lemma update_efficient_length (Y : tensor) (i : nat) (m : list bool) :
  length m = length Y -> length (update_efficient Y i m) = length Y.
Proof.
  intros Hlen. unfold update_efficient.
  rewrite length_map, !length_combine, length_seq. lia.
Qed.

(** The invariant of the pairwise loop over a list [l] of indices: marks are
    only ever removed, and a point of [l] that is still marked at the end
    is beaten in some objective by every other point still marked. *)
Lemma filter_loop_spec (Y : tensor) :
  forall (l : list nat) (m : list bool),
    length m = length Y ->
    let m' := fold_left
                (fun is_efficient i =>
                   if nth i is_efficient false
                   then update_efficient Y i is_efficient
                   else is_efficient) l m in
    length m' = length Y /\
    (forall j, nth j m' false = true -> nth j m false = true) /\
    (forall i j, In i l -> j <> i ->
                 nth i m' false = true -> nth j m' false = true ->
                 any_gt (nth j Y []) (nth i Y []) = true).
Proof.
  induction l as [| i0 l IH]; intros m Hlen; cbn [fold_left].
  - repeat split; [assumption | auto | intros i j []].
  - set (m1 := if nth i0 m false then update_efficient Y i0 m else m).
    assert (Hlen1 : length m1 = length Y).
    { subst m1. destruct (nth i0 m false); [now apply update_efficient_length | assumption]. }
    assert (Hmono1 : forall j, nth j m1 false = true -> nth j m false = true).
    { subst m1. intros j. destruct (nth i0 m false); [| auto].
      rewrite update_efficient_nth by assumption.
      intros H. now apply andb_true_iff in H. }
    destruct (IH m1 Hlen1) as (Hlen' & Hmono' & Hpair'). cbv zeta in *.
    repeat split; [assumption | auto |].
    intros i j [<- | Hin] Hne Hi Hj; [| now apply Hpair'].
    apply Hmono' in Hi. apply Hmono' in Hj.
    pose proof (Hmono1 _ Hi) as Hi0. subst m1. rewrite Hi0 in Hj.
    rewrite update_efficient_nth in Hj by assumption.
    apply andb_true_iff in Hj. destruct Hj as [_ Hj].
    apply orb_true_iff in Hj. destruct Hj as [Hj | Hj]; [| assumption].
    apply Nat.eqb_eq in Hj. congruence.
Qed.

Lemma nth_true_lt (m : list bool) (i : nat) :
  nth i m false = true -> (i < length m)%nat.
Proof.
  intros H. destruct (Nat.lt_ge_cases i (length m)) as [Hlt | Hge]; [assumption |].
  rewrite nth_overflow in H by assumption. discriminate.
Qed.

Lemma is_non_dominated_loop_length (Y : tensor) :
  length (_is_non_dominated_loop Y) = length Y.
Proof.
  unfold _is_non_dominated_loop.
  apply (filter_loop_spec Y (seq 0 (length Y)) (repeat true (length Y))).
  apply repeat_length.
Qed.

Lemma is_non_dominated_loop_pairs (Y : tensor) (i j : nat) :
  j <> i ->
  nth i (_is_non_dominated_loop Y) false = true ->
  nth j (_is_non_dominated_loop Y) false = true ->
  any_gt (nth j Y []) (nth i Y []) = true.
Proof.
  intros Hne Hi Hj.
  pose proof (nth_true_lt _ _ Hi) as Hlt.
  rewrite is_non_dominated_loop_length in Hlt.
  destruct (filter_loop_spec Y (seq 0 (length Y)) (repeat true (length Y))
              (repeat_length _ _)) as (_ & _ & Hpair).
  apply Hpair; try assumption.
  apply in_seq. lia.
Qed.

Lemma dominates_not_any_gt (a b : row) :
  Forall2 (fun x y => y <= x) a b -> any_gt b a = false.
Proof.
  unfold any_gt. induction 1 as [| x y a b Hxy _ IH]; [reflexivity |].
  cbn [combine existsb fst snd]. rewrite IH. unfold Rgtb.
  destruct (Rlt_dec x y); [lra | reflexivity].
Qed.

(** Two distinct points that both survive the filter do not dominate one
    another. *)
Lemma is_non_dominated_loop_sound (Y : tensor) (i j : nat) :
  i <> j ->
  nth i (_is_non_dominated_loop Y) false = true ->
  nth j (_is_non_dominated_loop Y) false = true ->
  ~ dominates (nth i Y []) (nth j Y []).
Proof.
  intros Hne Hi Hj [Hall _].
  pose proof (is_non_dominated_loop_pairs Y i j (not_eq_sym Hne) Hi Hj) as Hgt.
  rewrite (dominates_not_any_gt _ _ Hall) in Hgt. discriminate.
Qed.

Ltac decide_Rlt :=
  repeat match goal with
         | |- context [Rlt_dec ?a ?b] => destruct (Rlt_dec a b); try lra
         end.

Example is_non_dominated_loop_three_points :
  _is_non_dominated_loop [[1; 2]; [2; 1]; [0; 0]] = [true; true; false].
Proof.
  unfold _is_non_dominated_loop, update_efficient, any_gt, Rgtb.
  cbn [length seq repeat fold_left nth combine map existsb fst snd Nat.eqb orb].
  decide_Rlt. cbn [orb nth map combine existsb fst snd Nat.eqb].
  decide_Rlt. reflexivity.
Qed.

(** ** Chunked evaluation *)

Lemma concat_chunks {A} (c : nat) :
  (0 < c)%nat ->
  forall (k : nat) (l : list A),
    (length l <= k * c)%nat ->
    concat (map (fun i => firstn c (skipn (i * c) l)) (seq 0 k)) = l.
Proof.
  intros Hc. induction k as [| k IH]; intros l Hlen.
  - destruct l; [reflexivity | cbn in Hlen; lia].
  - cbn [seq map concat]. rewrite <- seq_shift, map_map.
    change (skipn (0 * c) l) with l.
    transitivity (firstn c l ++ skipn c l); [| apply firstn_skipn]. f_equal.
    etransitivity; [| apply (IH (skipn c l)); rewrite length_skipn; lia].
    f_equal. apply map_ext. intros i.
    rewrite skipn_skipn. do 2 f_equal. lia.
Qed.

Lemma range_step_covers (n c : nat) :
  (0 < c)%nat -> (n <= (n + c - 1) / c * c)%nat.
Proof.
  intros Hc.
  pose proof (Nat.div_mod_eq (n + c - 1) c) as Hdiv.
  pose proof (Nat.mod_upper_bound (n + c - 1) c) as Hmod.
  nia.
Qed.

Lemma chunked_preds_eq (SMOKE_TEST : bool) (posterior_mean : row -> row) (X : tensor) :
  length X = NUM_DISCRETE_POINTS SMOKE_TEST ->
  chunked_preds SMOKE_TEST posterior_mean X = map posterior_mean X.
Proof.
  intros Hlen. unfold chunked_preds, range_step.
  rewrite map_map.
  rewrite <- (map_map (fun i => firstn CHUNK_SIZE (skipn (i * CHUNK_SIZE) X))
                      (map posterior_mean)).
  rewrite <- concat_map. f_equal.
  apply concat_chunks; [unfold CHUNK_SIZE; lia |].
  rewrite Hlen. apply range_step_covers. unfold CHUNK_SIZE. lia.
Qed.

(** ** Selection by a mask *)

Lemma select_incl (mask : list bool) (X : tensor) : incl (select mask X) X.
Proof.
  intros x Hx. unfold select in Hx.
  apply in_map_iff in Hx. destruct Hx as ([x' b] & <- & Hin).
  apply filter_In in Hin. destruct Hin as [Hin _].
  now apply in_combine_l in Hin.
Qed.

Lemma select_length (mask : list bool) (X : tensor) :
  (length (select mask X) <= length X)%nat.
Proof.
  unfold select. rewrite length_map.
  etransitivity; [apply filter_length_le |].
  rewrite length_combine. lia.
Qed.

Lemma select_In_nth (X : tensor) :
  forall (mask : list bool) (x : row),
    In x (select mask X) ->
    exists i, (i < length X)%nat /\ nth i mask false = true /\ nth i X [] = x.
Proof.
  unfold select. induction X as [| r X IH]; intros mask x Hx; [contradiction |].
  destruct mask as [| b mask]; [contradiction |].
  cbn [combine filter snd] in Hx.
  assert (Hrest : In x (map fst (filter snd (combine X mask))) ->
                  exists i, (i < length (r :: X))%nat /\
                            nth i (b :: mask) false = true /\ nth i (r :: X) [] = x).
  { intros H. destruct (IH _ _ H) as (i & Hi & Hm & Hn).
    exists (S i). cbn [length nth]. repeat split; [lia | assumption..]. }
  destruct b; [| now apply Hrest].
  cbn [map fst] in Hx. destruct Hx as [<- | Hx]; [| now apply Hrest].
  exists 0%nat. cbn. repeat split. lia.
Qed.

(** ** The discretized Pareto evaluator *)

Lemma discrete_set_length (SMOKE_TEST : bool) (u : nat -> R) (dim_x g : nat)
      (is_mf_model : bool) :
  length (discrete_set SMOKE_TEST u dim_x g is_mf_model)
  = NUM_DISCRETE_POINTS SMOKE_TEST.
Proof.
  unfold discrete_set, torch_rand, set_last_col, project.
  destruct is_mf_model; now rewrite !length_map, length_seq.
Qed.

(** C8.  In the discretized evaluator the filter selects rows of the
    candidate set by a mask, so what survives is a subset of the candidates
    and nothing is added; and of two distinct surviving candidates neither
    has a predicted objective vector that dominates the other's. *)
Theorem discretized_filter_sound
        (SMOKE_TEST : bool) (u : nat -> R) (dim_x : nat)
        (posterior_mean : row -> row) (g : nat) (is_mf_model : bool) :
  let X := discrete_set SMOKE_TEST u dim_x g is_mf_model in
  let preds := chunked_preds SMOKE_TEST posterior_mean X in
  let pareto_mask := _is_non_dominated_loop preds in
  let pareto_X := discrete_pareto_X SMOKE_TEST u dim_x posterior_mean g is_mf_model in
  preds = map posterior_mean X /\
  length pareto_mask = length X /\
  pareto_X = select pareto_mask X /\
  incl pareto_X X /\
  (length pareto_X <= length X)%nat /\
  (forall x, In x pareto_X ->
             exists i, (i < length X)%nat /\
                       nth i pareto_mask false = true /\ nth i X [] = x) /\
  (forall i j,
      i <> j ->
      nth i pareto_mask false = true ->
      nth j pareto_mask false = true ->
      ~ dominates (posterior_mean (nth i X [])) (posterior_mean (nth j X []))).
Proof.
  intros X preds pareto_mask pareto_X.
  assert (Hpreds : preds = map posterior_mean X).
  { apply chunked_preds_eq, discrete_set_length. }
  assert (Hlen : length pareto_mask = length X).
  { subst pareto_mask. now rewrite is_non_dominated_loop_length, Hpreds, length_map. }
  split; [exact Hpreds |]. split; [exact Hlen |]. split; [reflexivity |].
  split; [apply select_incl |]. split; [apply select_length |].
  split; [apply select_In_nth |].
  intros i j Hne Hi Hj.
  pose proof (is_non_dominated_loop_sound preds i j Hne Hi Hj) as Hsound.
  assert (Hnth : forall k, nth k pareto_mask false = true ->
                           nth k preds [] = posterior_mean (nth k X [])).
  { intros k Hk. apply nth_true_lt in Hk. rewrite Hlen in Hk.
    rewrite Hpreds, (nth_indep _ [] (posterior_mean [])) by (now rewrite length_map).
    apply map_nth. }
  now rewrite (Hnth i Hi), (Hnth j Hj) in Hsound.
Qed.

(** ** Feasibility of the designs the evaluator observes *)

Lemma normalized_target_fidelity_eq : normalized_target_fidelity = 1.
Proof. unfold normalized_target_fidelity. lra. Qed.

Lemma in_unit_box_nonempty (d : nat) (r : row) :
  (0 < d)%nat -> in_unit_box d r -> r <> [].
Proof. intros Hd [Hlen _] ->. cbn in Hlen. lia. Qed.

Lemma in_unit_box_app (d : nat) (r : row) (v : R) :
  in_unit_box d r -> 0 <= v <= 1 -> in_unit_box (S d) (r ++ [v]).
Proof.
  intros [Hlen Hbox] Hv. split.
  - rewrite length_app. cbn. lia.
  - apply Forall_app. split; [assumption | now constructor].
Qed.

Lemma in_unit_box_set_last (d : nat) (r : row) (v : R) :
  (0 < d)%nat -> in_unit_box d r -> 0 <= v <= 1 -> in_unit_box d (set_last v r).
Proof.
  intros Hd Hr Hv. pose proof (in_unit_box_nonempty d r Hd Hr) as Hne.
  destruct Hr as [Hlen Hbox]. split.
  - now rewrite set_last_length.
  - unfold set_last. destruct (exists_last Hne) as (l & a & ->).
    rewrite removelast_last. apply Forall_app in Hbox. destruct Hbox as [Hl _].
    apply Forall_app. split; [assumption | now constructor].
Qed.

Lemma project_row_in_box (d : nat) (r : row) :
  (0 < d)%nat ->
  in_unit_box (d - 1) r \/ in_unit_box d r ->
  in_unit_box d (project_row d r).
Proof.
  intros Hd Hr. unfold project_row. rewrite normalized_target_fidelity_eq.
  destruct (Nat.eqb_spec (length r) d) as [Hlen | Hlen].
  - apply in_unit_box_set_last; [assumption | | lra].
    destruct Hr as [[Hr _] | Hr]; [lia | assumption].
  - destruct Hr as [Hr | [Hr _]]; [| congruence].
    replace d with (S (d - 1)) at 1 by lia. apply in_unit_box_app; [assumption | lra].
Qed.

Lemma torch_rand_in_box (u : nat -> R) (g q d : nat) :
  (forall i, 0 <= u i < 1) ->
  Forall (in_unit_box d) (fst (torch_rand u g q d)).
Proof.
  intros Hu. unfold torch_rand. cbn [fst].
  apply Forall_map, Forall_forall. intros i _. split.
  - now rewrite length_map, length_seq.
  - apply Forall_map, Forall_forall. intros k _. specialize (Hu k). lra.
Qed.

Lemma select_Forall (P : row -> Prop) (mask : list bool) (X : tensor) :
  Forall P X -> Forall P (select mask X).
Proof.
  rewrite !Forall_forall. intros HX x Hx. apply HX. now apply select_incl in Hx.
Qed.

Lemma unnormalize_row_feasible (r lb ub : row) :
  length lb = length r -> length ub = length r ->
  Forall (fun x => 0 <= x <= 1) r ->
  Forall2 Rle lb ub ->
  feasible (lb, ub) (unnormalize_row (lb, ub) r).
Proof.
  unfold feasible, unnormalize_row. cbn [fst snd].
  intros Hlb Hub Hr Hb. revert r Hlb Hub Hr.
  induction Hb as [| l h lb ub Hlh _ IH]; intros r Hlb Hub Hr.
  - destruct r; [constructor | discriminate].
  - destruct r as [| x r]; [discriminate |].
    apply Forall_cons_iff in Hr. destruct Hr as [Hx Hr].
    cbn [combine map fst snd]. constructor.
    + cbn [fst snd]. nra.
    + apply IH; [cbn in Hlb; lia | cbn in Hub; lia | assumption].
Qed.

Lemma unnormalize_feasible (d : nat) (b : bounds) (X : tensor) :
  bounds_ok d b ->
  Forall (in_unit_box d) X ->
  Forall (feasible b) (unnormalize X b).
Proof.
  intros (Hlb & Hub & Hle) HX. destruct b as [lb ub]. cbn [fst snd] in *.
  apply Forall_map. eapply Forall_impl; [| exact HX].
  intros r [Hlen Hbox]. apply unnormalize_row_feasible; congruence.
Qed.

Section EvaluatorFacts.
Variable SMOKE_TEST : bool.
Variable u : nat -> R.
Variable dim_x : nat.
Variable posterior_mean : row -> row.

Hypothesis dim_x_ge_2 : (2 <= dim_x)%nat.
Hypothesis u_uniform : forall i, 0 <= u i < 1.

Lemma project_in_box (k : nat) (X : tensor) :
  k = (dim_x - 1)%nat \/ k = dim_x ->
  Forall (in_unit_box k) X -> Forall (in_unit_box dim_x) (project dim_x X).
Proof.
  intros Hk HX. unfold project. apply Forall_map.
  eapply Forall_impl; [| exact HX]. intros r Hr.
  apply project_row_in_box; [lia |]. destruct Hk as [-> | ->]; auto.
Qed.

Lemma set_last_col_in_box (k : nat) (X : tensor) :
  (0 < k)%nat ->
  Forall (in_unit_box k) X -> Forall (in_unit_box k) (set_last_col 1 X).
Proof.
  intros Hk HX. unfold set_last_col. apply Forall_map.
  eapply Forall_impl; [| exact HX]. intros r Hr.
  apply in_unit_box_set_last; [assumption.. | lra].
Qed.

(** Whatever the mask, the designs the discretized strategy hands to the
    true objective are within the unit box of all [dim_x] inputs. *)
Lemma discrete_designs_in_box (g : nat) (is_mf_model : bool) (mask : list bool) :
  let X := select mask (discrete_set SMOKE_TEST u dim_x g is_mf_model) in
  Forall (in_unit_box dim_x) (if is_mf_model then X else project dim_x X).
Proof.
  cbv zeta. unfold discrete_set.
  pose proof (torch_rand_in_box u g (NUM_DISCRETE_POINTS SMOKE_TEST) (dim_x - 1)
                u_uniform) as Hrand.
  destruct (torch_rand u g (NUM_DISCRETE_POINTS SMOKE_TEST) (dim_x - 1)) as [X0 g'].
  cbn [fst] in Hrand. destruct is_mf_model.
  - apply select_Forall, set_last_col_in_box; [lia |].
    apply (project_in_box (dim_x - 1)); auto.
  - apply (project_in_box (dim_x - 1)); [auto |].
    apply select_Forall, set_last_col_in_box; [lia | assumption].
Qed.
End EvaluatorFacts.

(** C9.  For the discretized and for the evolutionary strategy, the
    hypervolume [get_pareto] returns is at most the problem's maximum
    hypervolume: it is the hypervolume, against the fixed reference point,
    of the true objective at design points that lie within the declared
    bounds. *)
Theorem get_pareto_below_max_hv
        (SMOKE_TEST : bool) (u : nat -> R) (BC : row -> row) (BC_bounds : bounds)
        (BC_ref_point : row) (dim_x : nat) (posterior_mean : row -> row)
        (compute_hypervolume : row -> tensor -> R)
        (is_non_dominated : tensor -> list bool)
        (minimize : nat -> (tensor -> tensor) -> nat -> nat -> tensor)
        (max_hv : R) (g : nat) (non_fidelity_indices : list nat)
        (population_size max_gen : nat) (is_mf_model : bool) :
  (2 <= dim_x)%nat ->
  S (length non_fidelity_indices) = dim_x ->
  (forall i, 0 <= u i < 1) ->
  bounds_ok dim_x BC_bounds ->
  minimize_in_box minimize ->
  is_max_hv BC BC_bounds BC_ref_point compute_hypervolume max_hv ->
  get_pareto_discretized SMOKE_TEST u BC BC_bounds BC_ref_point dim_x
                         posterior_mean compute_hypervolume g is_mf_model
  <= max_hv /\
  get_pareto_nsga2 BC BC_bounds BC_ref_point dim_x posterior_mean
                   compute_hypervolume is_non_dominated minimize
                   non_fidelity_indices population_size max_gen is_mf_model
  <= max_hv.
Proof.
  intros Hd Hdim Hu Hb Hmin Hmax.
  assert (Htail : forall X, Forall (in_unit_box dim_x) X ->
                            true_hypervolume BC BC_bounds BC_ref_point
                                             compute_hypervolume X <= max_hv).
  { intros X HX. unfold true_hypervolume. apply Hmax.
    now apply (unnormalize_feasible dim_x). }
  split.
  - unfold get_pareto_discretized, discrete_pareto_X. apply Htail.
    now apply (discrete_designs_in_box SMOKE_TEST u dim_x Hd Hu g is_mf_model).
  - unfold get_pareto_nsga2. apply Htail.
    pose proof (Hmin (length non_fidelity_indices)
                     (_evaluate dim_x posterior_mean is_mf_model)
                     population_size max_gen) as HX.
    replace (length non_fidelity_indices) with (dim_x - 1)%nat in * by lia.
    destruct is_mf_model.
    + apply select_Forall. now apply (project_in_box dim_x Hd (dim_x - 1)); auto.
    + apply (project_in_box dim_x Hd (dim_x - 1)); [auto |]. now apply select_Forall.
Qed.

Lemma get_pareto_below_max_hv_witness :
  get_pareto_discretized true (fun _ => 0) (fun r => r) ([0; 0; 0], [1; 1; 1]) [0; 0] 3
                         (fun r => r)
                         (fun _ Y => match Y with [] => 0 | _ => 1 end) 0 true
  <= 1.
Proof.
  refine (proj1 (get_pareto_below_max_hv
                   true (fun _ => 0) (fun r => r) ([0; 0; 0], [1; 1; 1]) [0; 0] 3
                   (fun r => r) (fun _ Y => match Y with [] => 0 | _ => 1 end)
                   (fun Y => map (fun _ => true) Y)
                   (fun n _ _ _ => [repeat 0 n])
                   1 0 [0%nat; 1%nat] 250 100 true _ _ _ _ _ _)).
  - lia.
  - reflexivity.
  - intros i. lra.
  - unfold bounds_ok. cbn [fst snd length]. repeat split.
    repeat constructor; lra.
  - intros n ev pop gen. constructor; [| constructor]. split.
    + apply repeat_length.
    + apply Forall_forall. intros x Hx. apply repeat_spec in Hx. subst. lra.
  - intros X HX. destruct X; cbn [map]; lra.
Defined.

(** ** A run of the sampler

    With a generator that only produces [0] every point drawn is
    [(0, 0, 0)] and costs [1]; with the budget [2 / exp 4.8] the limit is
    [2], two points are drawn and the first one is returned. *)
Example gen_init_data_two_draws (BC : row -> row) :
  gen_init_data (fun _ => 0) BC 3 3 (2 / exp 4.8) 0
  = Some ([[0; 0; inv_transform 0]], [BC [0; 0; inv_transform 0]]).
Proof.
  assert (Hlim : total_cost_limit 3 (2 / exp 4.8) = 2).
  { rewrite total_cost_limit_eq, cost_func_1 by lia.
    field. apply Rgt_not_eq, exp_pos. }
  assert (Hcost : item (cost_callable [[0; 0; inv_transform 0]]) = 1).
  { change [0; 0; inv_transform 0] with (set_last (inv_transform 0) [0; 0; 0]).
    rewrite cost_callable_set_last. cbn [item].
    now rewrite inv_transform_0, cost_func_0. }
  unfold gen_init_data. cbn [gen_init_loop]. rewrite Hlim.
  destruct (Rlt_dec 0 2); [| lra].
  change (draw_point (fun _ : nat => 0) 3 0) with ([[0; 0; inv_transform 0]], 3%nat).
  cbv beta iota. rewrite Hcost.
  destruct (Rlt_dec (0 + 1) 2); [| lra].
  change (draw_point (fun _ : nat => 0) 3 3) with ([[0; 0; inv_transform 0]], 6%nat).
  cbv beta iota. rewrite Hcost.
  destruct (Rlt_dec (0 + 1 + 1) 2); [lra |].
  reflexivity.
Qed.

(** * Further properties of the script *)

(** ** The sampler: edge cases, shape of the points, size of the result *)

Lemma total_cost_limit_nonpos (dim_x : nat) (n : R) :
  n <= 0 -> total_cost_limit dim_x n <= 0.
Proof.
  intros Hn. unfold total_cost_limit.
  assert (Hitem : 0 <= item (cost_callable (ones 1 dim_x))).
  { unfold ones. cbn [repeat cost_callable map].
    destruct (repeat 1 dim_x) as [| a r]; cbn [last_slice map item]; [lra |].
    left. apply cost_func_pos. }
  nra.
Qed.

(** X1.  With a budget [n <= 0] the loop of [gen_init_data] is not entered:
    nothing is drawn and the result is the empty dataset. *)
Theorem gen_init_data_no_budget
        (u : nat -> R) (BC : row -> row) (dim_x : nat) (n : R) (g fuel : nat) :
  n <= 0 ->
  gen_init_loop u dim_x (S fuel) n g 0 [] = Some ([], g) /\
  gen_init_data u BC dim_x (S fuel) n g = Some ([], []).
Proof.
  intros Hn. pose proof (total_cost_limit_nonpos dim_x n Hn) as Hlim.
  assert (Hloop : gen_init_loop u dim_x (S fuel) n g 0 [] = Some ([], g)).
  { cbn [gen_init_loop].
    destruct (Rlt_dec 0 (total_cost_limit dim_x n)); [lra | reflexivity]. }
  split; [exact Hloop |]. unfold gen_init_data. now rewrite Hloop.
Qed.

Lemma gen_init_data_no_budget_witness :
  gen_init_data (fun _ => 0) (fun r => r) 3 1 0 0 = Some ([], []).
Proof.
  apply (gen_init_data_no_budget (fun _ => 0) (fun r => r) 3 0 0 0). lra.
Defined.

Lemma Forall_removelast {A} (P : A -> Prop) (l : list A) :
  Forall P l -> Forall P (removelast l).
Proof.
  intros Hl. destruct l as [| a l]; [constructor |].
  assert (Hne : a :: l <> []) by discriminate.
  destruct (exists_last Hne) as (l' & b & Heq). rewrite Heq in *.
  rewrite removelast_last. apply Forall_app in Hl. tauto.
Qed.

Section SamplerShape.
Variable u : nat -> R.
Variable dim_x : nat.
Hypothesis dim_x_pos : (0 < dim_x)%nat.
Hypothesis u_uniform : forall i, 0 <= u i < 1.

Lemma draw_point_sampled g :
  Forall (sampled_point dim_x) (fst (draw_point u dim_x g)).
Proof.
  rewrite draw_point_eq. cbn [fst]. constructor; [| constructor].
  set (r0 := map u (seq (g + 0 * dim_x) dim_x)).
  assert (Hbox : in_unit_box dim_x r0).
  { split; [subst r0; now rewrite length_map, length_seq |].
    apply Forall_map, Forall_forall. intros i _.
    pose proof (u_uniform i). lra. }
  assert (Hlast : 0 <= last_coord r0 < 1).
  { apply (last_Forall (fun x => 0 <= x < 1)); [| lra].
    apply Forall_map, Forall_forall. intros i _. apply u_uniform. }
  pose proof (inv_transform_lt_1 _ Hlast) as Hfid.
  split.
  - apply in_unit_box_set_last; [assumption.. | lra].
  - now rewrite last_coord_set_last.
Qed.

Lemma gen_init_loop_sampled fuel :
  forall n g total tx res g',
    gen_init_loop u dim_x fuel n g total tx = Some (res, g') ->
    Forall (sampled_point dim_x) tx ->
    Forall (sampled_point dim_x) res.
Proof.
  induction fuel as [| fuel IH]; intros n g total tx res g' Hrun Htx;
    cbn [gen_init_loop] in Hrun; [discriminate |].
  destruct (Rlt_dec total (total_cost_limit dim_x n)).
  - pose proof (draw_point_sampled g) as Hnew.
    destruct (draw_point u dim_x g) as [new_x g1]. cbn [fst] in Hnew.
    apply (IH _ _ _ _ _ _ Hrun). apply Forall_app. now split.
  - now injection Hrun as <- <-.
Qed.
End SamplerShape.

Lemma sampled_point_cost (d : nat) (r : row) :
  (0 < d)%nat -> sampled_point d r ->
  r <> [] /\ 1 <= cost_func (last_coord r) < cost_func 1.
Proof.
  intros Hd [Hbox Hfid]. split; [now apply (in_unit_box_nonempty d) |]. split.
  - apply cost_func_ge_1. lra.
  - apply cost_func_increasing. lra.
Qed.

(** X2.  Every design point [gen_init_data] returns has [dim_x] coordinates,
    all in [[0, 1]], and a fidelity in [[0, 1)]: it never samples the target
    fidelity, and each point costs at least [cost 0 = 1] and less than one
    full-fidelity evaluation. *)
Theorem gen_init_data_points_sampled
        (u : nat -> R) (BC : row -> row) (dim_x : nat) (n : R) (g fuel : nat)
        (train_x train_obj : tensor) :
  (0 < dim_x)%nat ->
  (forall i, 0 <= u i < 1) ->
  gen_init_data u BC dim_x fuel n g = Some (train_x, train_obj) ->
  Forall (fun r => length r = dim_x /\
                   Forall (fun x => 0 <= x <= 1) r /\
                   0 <= last_coord r < 1 /\
                   1 <= cost_func (last_coord r) < cost_func 1) train_x.
Proof.
  intros Hd Hu Hdata. unfold gen_init_data in Hdata.
  destruct (gen_init_loop u dim_x fuel n g 0 []) as [[drawn g'] |] eqn:Hrun;
    [| discriminate].
  injection Hdata as <- _.
  pose proof (gen_init_loop_sampled u dim_x Hd Hu fuel _ _ _ _ _ _ Hrun
                (Forall_nil _)) as Hall.
  apply Forall_removelast in Hall.
  eapply Forall_impl; [| exact Hall]. intros r Hr.
  destruct (sampled_point_cost dim_x r Hd Hr) as [_ Hcost].
  destruct Hr as [[Hlen Hbox] Hfid]. auto.
Qed.

Lemma gen_init_data_points_sampled_witness :
  Forall (fun r => length r = 3%nat /\
                   Forall (fun x => 0 <= x <= 1) r /\
                   0 <= last_coord r < 1 /\
                   1 <= cost_func (last_coord r) < cost_func 1)
         [[0; 0; inv_transform 0]].
Proof.
  apply (gen_init_data_points_sampled
           (fun _ => 0) (fun r => r) 3 (2 / exp 4.8) 0 3
           [[0; 0; inv_transform 0]] [[0; 0; inv_transform 0]]).
  - lia.
  - intros i. lra.
  - apply gen_init_data_two_draws.
Defined.

Lemma tsum_cost_cons (r : row) (X : tensor) :
  r <> [] ->
  tsum (cost_callable (r :: X)) = cost_func (last_coord r) + tsum (cost_callable X).
Proof.
  intros Hr. rewrite cost_callable_row by assumption.
  change (tsum (?c :: ?Y)) with (row_sum c + tsum Y).
  cbn [row_sum fold_right]. lra.
Qed.

(** The cost of a batch of sampled points lies between the number of points
    and that number of full-fidelity evaluations. *)
Lemma tsum_cost_sampled (d : nat) (X : tensor) :
  (0 < d)%nat ->
  Forall (sampled_point d) X ->
  INR (length X) <= tsum (cost_callable X) /\
  (X <> [] -> tsum (cost_callable X) < INR (length X) * cost_func 1).
Proof.
  intros Hd HX. induction HX as [| r X Hr HX [IHlo IHhi]].
  - split; [change (tsum (cost_callable [])) with 0; cbn; lra | congruence].
  - destruct (sampled_point_cost d r Hd Hr) as [Hne Hcost].
    rewrite tsum_cost_cons by assumption.
    change (length (r :: X)) with (S (length X)). rewrite S_INR.
    split; [lra |]. intros _.
    destruct X as [| r' X].
    + change (tsum (cost_callable [])) with 0. cbn [length INR]. lra.
    + assert (Hne' : r' :: X <> []) by discriminate.
      specialize (IHhi Hne'). lra.
Qed.

(** X3.  For a budget [n > 0], the number [N] of points [gen_init_data]
    returns satisfies [n - 1 < N < n * cost 1]: with a budget of at least one
    full-fidelity evaluation the initial dataset is not empty, and it never
    holds as many points as the budget counts in units of the cheapest
    evaluation. *)
Theorem gen_init_data_size
        (u : nat -> R) (BC : row -> row) (dim_x : nat) (n : R) (g fuel : nat)
        (train_x train_obj : tensor) :
  (0 < dim_x)%nat ->
  0 < n ->
  (forall i, 0 <= u i < 1) ->
  gen_init_data u BC dim_x fuel n g = Some (train_x, train_obj) ->
  n - 1 < INR (length train_x) < n * cost_func 1 /\
  length train_obj = length train_x /\
  (1 <= n -> train_x <> []).
Proof.
  intros Hd Hn Hu Hdata. unfold gen_init_data in Hdata.
  destruct (gen_init_loop u dim_x fuel n g 0 []) as [[drawn g'] |] eqn:Hrun;
    [| discriminate].
  injection Hdata as <- <-.
  pose proof (gen_init_loop_sampled u dim_x Hd Hu fuel _ _ _ _ _ _ Hrun
                (Forall_nil _)) as Hall.
  destruct (gen_init_loop_spec u dim_x fuel n g 0 [] drawn g' Hrun eq_refl)
    as [Hentered _].
  rewrite (total_cost_limit_eq dim_x n Hd) in Hentered.
  pose proof (cost_func_pos 1) as Hc1.
  destruct Hentered as (kept & x & -> & Hlt & Hge); [nra |].
  rewrite removelast_last.
  destruct (tsum_cost_sampled dim_x _ Hd Hall) as [_ Hhi].
  specialize (Hhi ltac:(destruct kept; discriminate)).
  apply Forall_app in Hall. destruct Hall as [Hkept _].
  destruct (tsum_cost_sampled dim_x _ Hd Hkept) as [Hlo _].
  rewrite length_app, plus_INR in Hhi. cbn [length INR] in Hhi.
  assert (Hsize : n - 1 < INR (length kept) < n * cost_func 1) by (split; nra).
  split; [exact Hsize |]. split; [apply length_map |].
  intros Hn1 ->. cbn [length INR] in Hsize. lra.
Qed.

Lemma gen_init_data_size_witness :
  (2 / exp 4.8) - 1 < INR (length [[0; 0; inv_transform 0]])
  < (2 / exp 4.8) * cost_func 1.
Proof.
  refine (proj1 (gen_init_data_size
                   (fun _ => 0) (fun r => r) 3 (2 / exp 4.8) 0 3
                   [[0; 0; inv_transform 0]] [[0; 0; inv_transform 0]] _ _ _ _)).
  - lia.
  - apply Rdiv_lt_0_compat; [lra | apply exp_pos].
  - intros i. lra.
  - apply gen_init_data_two_draws.
Defined.

Example gen_init_loop_two_draws :
  gen_init_loop (fun _ => 0) 3 3 (2 / exp 4.8) 0 0 []
  = Some ([[0; 0; inv_transform 0]; [0; 0; inv_transform 0]], 6%nat).
Proof.
  assert (Hlim : total_cost_limit 3 (2 / exp 4.8) = 2).
  { rewrite total_cost_limit_eq, cost_func_1 by lia.
    field. apply Rgt_not_eq, exp_pos. }
  assert (Hcost : item (cost_callable [[0; 0; inv_transform 0]]) = 1).
  { change [0; 0; inv_transform 0] with (set_last (inv_transform 0) [0; 0; 0]).
    rewrite cost_callable_set_last. cbn [item].
    now rewrite inv_transform_0, cost_func_0. }
  cbn [gen_init_loop]. rewrite Hlim.
  destruct (Rlt_dec 0 2); [| lra].
  change (draw_point (fun _ : nat => 0) 3 0) with ([[0; 0; inv_transform 0]], 3%nat).
  cbv beta iota. rewrite Hcost.
  destruct (Rlt_dec (0 + 1) 2); [| lra].
  change (draw_point (fun _ : nat => 0) 3 3) with ([[0; 0; inv_transform 0]], 6%nat).
  cbv beta iota. rewrite Hcost.
  destruct (Rlt_dec (0 + 1 + 1) 2); [lra |].
  reflexivity.
Qed.

(** X4.  The sampler reads exactly [dim_x] uniforms off the generator for
    every point it draws, the dropped one included, and it only ever appends
    to the rows it already holds: started at position [g] it leaves the
    generator at [g + dim_x * k] after drawing [k] points. *)
Theorem gen_init_loop_generator
        (u : nat -> R) (dim_x : nat) (fuel : nat) :
  forall (n : R) (g : nat) (total : R) (tx drawn : tensor) (g' : nat),
    gen_init_loop u dim_x fuel n g total tx = Some (drawn, g') ->
    (length tx <= length drawn)%nat /\
    g' = (g + dim_x * (length drawn - length tx))%nat /\
    firstn (length tx) drawn = tx.
Proof.
  induction fuel as [| fuel IH]; intros n g total tx drawn g' Hrun;
    cbn [gen_init_loop] in Hrun; [discriminate |].
  destruct (Rlt_dec total (total_cost_limit dim_x n)).
  - rewrite draw_point_eq in Hrun.
    destruct (IH _ _ _ _ _ _ Hrun) as (Hlen & Hg & Hpre).
    rewrite length_app in Hlen, Hg, Hpre. cbn [length] in Hlen, Hg, Hpre.
    repeat split; [lia | nia |].
    apply (f_equal (firstn (length tx))) in Hpre.
    rewrite firstn_firstn, Nat.min_l in Hpre by lia.
    now rewrite firstn_app, Nat.sub_diag, firstn_all, app_nil_r in Hpre.
  - injection Hrun as <- <-. rewrite Nat.sub_diag, firstn_all. repeat split; lia.
Qed.

Lemma gen_init_loop_generator_witness :
  le (length (@nil row))
     (length [[0; 0; inv_transform 0]; [0; 0; inv_transform 0]]) /\
  6%nat = Nat.add 0 (Nat.mul 3 (Nat.sub
                                  (length [[0; 0; inv_transform 0];
                                           [0; 0; inv_transform 0]])
                                  (length (@nil row)))) /\
  firstn (length (@nil row)) [[0; 0; inv_transform 0]; [0; 0; inv_transform 0]] = [].
Proof.
  apply (gen_init_loop_generator (fun _ => 0) 3 3 (2 / exp 4.8) 0 0 []).
  exact gen_init_loop_two_draws.
Defined.

(** ** Observations and the zero-value rule *)

Lemma get_objective_momf_eq (BC : row -> row) (x : tensor) :
  get_objective_momf BC x = map (fun r => BC r ++ [last_coord r]) x.
Proof.
  unfold get_objective_momf. rewrite cat_cols_map. apply map_ext.
  intros r. unfold fid_obj. now rewrite Rmult_1_l.
Qed.

Lemma get_objective_momf_app (BC : row -> row) (a b : tensor) :
  get_objective_momf BC (a ++ b)
  = get_objective_momf BC a ++ get_objective_momf BC b.
Proof. rewrite !get_objective_momf_eq. apply map_app. Qed.

(** X5.  [get_objective_momf] returns one observation per design point, in
    order: the objectives of the point followed by the point's own fidelity
    as the last objective; no row is lost when the two tensors are glued, and
    observing a concatenation is concatenating the observations. *)
Theorem get_objective_momf_rows (BC : row -> row) (x : tensor) :
  length (get_objective_momf BC x) = length x /\
  (forall i, (i < length x)%nat ->
             nth i (get_objective_momf BC x) []
             = BC (nth i x []) ++ [last_coord (nth i x [])]) /\
  Forall (fun p => last_coord (snd p) = last_coord (fst p))
         (combine x (get_objective_momf BC x)) /\
  (forall y, get_objective_momf BC (x ++ y)
             = get_objective_momf BC x ++ get_objective_momf BC y).
Proof.
  rewrite get_objective_momf_eq. split; [apply length_map |]. split; [| split].
  - intros i Hi.
    rewrite (nth_indep _ [] ((fun r => BC r ++ [last_coord r]) []))
      by now rewrite length_map.
    apply (map_nth (fun r => BC r ++ [last_coord r])).
  - induction x as [| r x IH]; cbn [map combine]; constructor; [| exact IH].
    cbn [fst snd]. unfold last_coord at 1. apply last_last.
  - intros y. rewrite <- get_objective_momf_eq. apply get_objective_momf_app.
Qed.

Lemma removelast_set_last v (r : row) : removelast (set_last v r) = removelast r.
Proof. unfold set_last. apply removelast_last. Qed.

Lemma zero_value_guard_nonzero (c : tensor) (v : R) :
  v <> 0 -> zero_value_guard c v = c.
Proof.
  intros Hv. unfold zero_value_guard.
  destruct (Req_dec_T v 0); [contradiction | reflexivity].
Qed.

(** X6.  The zero-value guard touches nothing but the fidelity column: it
    keeps the number of candidates, it keeps every non-fidelity coordinate
    of every candidate, and for a non-zero acquisition value it returns the
    candidates as they are. *)
Theorem zero_value_guard_only_fidelity (candidates : tensor) (vals : R) :
  length (zero_value_guard candidates vals) = length candidates /\
  map (@removelast R) (zero_value_guard candidates vals)
  = map (@removelast R) candidates /\
  (Forall (fun r => r <> []) candidates ->
   map (@length R) (zero_value_guard candidates vals) = map (@length R) candidates) /\
  (vals <> 0 -> zero_value_guard candidates vals = candidates).
Proof.
  split; [apply zero_value_guard_length |].
  unfold zero_value_guard, set_last_col.
  destruct (Req_dec_T vals 0) as [Hz | Hnz].
  - split; [| split].
    + rewrite map_map. apply map_ext. intros r. apply removelast_set_last.
    + intros Hne. rewrite map_map. apply map_ext_in. intros r Hr.
      apply set_last_length. rewrite Forall_forall in Hne. now apply Hne.
    + intros Hv. contradiction.
  - repeat split; reflexivity.
Qed.

Lemma unnormalize_row_standard (r : row) :
  forall d, length r = d -> unnormalize_row (standard_bounds d) r = r.
Proof.
  unfold unnormalize_row, standard_bounds. cbn [fst snd].
  induction r as [| x r IH]; intros d Hd; [reflexivity |].
  destruct d as [| d]; [discriminate |].
  cbn [repeat combine map fst snd]. f_equal; [lra |].
  apply IH. cbn in Hd. lia.
Qed.

Lemma unnormalize_standard (d : nat) (X : tensor) :
  Forall (fun r => length r = d) X -> unnormalize X (standard_bounds d) = X.
Proof.
  intros HX. unfold unnormalize. induction HX as [| r X Hr _ IH]; [reflexivity |].
  cbn [map]. now rewrite IH, unnormalize_row_standard.
Qed.

(** X7.  With its standard bounds, [optimize_MOMF_and_get_obs] observes
    exactly at the candidates the optimiser returned, the fidelity zeroed
    when the acquisition value is [0]: the new design points are those
    candidates and the new observations are their objectives followed by
    their fidelity. *)
Theorem momf_observes_candidates
        (BC : row -> row) (dim_x : nat) (acq : acquisition)
        (it : nat) (tx tobj : tensor) :
  (0 < dim_x)%nat ->
  Forall (fun r => length r = dim_x) (fst (acq it tx tobj)) ->
  optimize_MOMF_and_get_obs BC acq it tx tobj (standard_bounds dim_x)
  = (guarded_candidates acq it tx tobj,
     map (fun r => BC r ++ [last_coord r]) (guarded_candidates acq it tx tobj)) /\
  (snd (acq it tx tobj) <> 0 ->
   fst (optimize_MOMF_and_get_obs BC acq it tx tobj (standard_bounds dim_x))
   = fst (acq it tx tobj)).
Proof.
  intros Hd Hlen.
  assert (Hshape : Forall (fun r => length r = dim_x)
                          (guarded_candidates acq it tx tobj)).
  { unfold guarded_candidates. destruct (acq it tx tobj) as [c v]. cbn [fst] in Hlen.
    pose proof (zero_value_guard_zero_length dim_x c v Hd Hlen) as H.
    eapply Forall_impl; [| exact H]. now intros r [Hr _]. }
  unfold optimize_MOMF_and_get_obs.
  rewrite (unnormalize_standard dim_x _ Hshape), get_objective_momf_eq.
  split; [reflexivity |]. cbn [fst]. unfold guarded_candidates.
  destruct (acq it tx tobj) as [c v]. cbn [fst snd]. intros Hv.
  now apply zero_value_guard_nonzero.
Qed.

Lemma momf_observes_candidates_witness :
  optimize_MOMF_and_get_obs (fun r => r) (fun _ _ _ => ([[1; 1; 1]], 0)) 0 [] []
                            (standard_bounds 3)
  = (guarded_candidates (fun _ _ _ => ([[1; 1; 1]], 0)) 0 [] [],
     map (fun r => r ++ [last_coord r])
         (guarded_candidates (fun _ _ _ => ([[1; 1; 1]], 0)) 0 [] [])).
Proof.
  refine (proj1 (momf_observes_candidates
                   (fun r => r) 3 (fun _ _ _ => ([[1; 1; 1]], 0)) 0 [] [] _ _)).
  - lia.
  - repeat constructor.
Defined.

(** ** Invariants of the three loops *)

Lemma update_consistent (observe : tensor -> tensor) (st : loop_state) (new_x : tensor) :
  (forall a b, observe (a ++ b) = observe a ++ observe b) ->
  consistent_state observe st ->
  consistent_state observe (update st (new_x, observe new_x)).
Proof.
  intros Happ [Hcost Hobs]. unfold consistent_state, update.
  cbn [total_cost train_x train_obj fst snd]. split.
  - rewrite cost_callable_app, tsum_app. lra.
  - now rewrite Happ, Hobs.
Qed.

Lemma iter_invariant (P : loop_state -> Prop) (step : loop_state -> loop_state) :
  (forall st, P st -> P (step st)) ->
  forall st k, P st -> P (Nat.iter k step st).
Proof.
  intros Hstep st k Hst. induction k as [| k IH]; cbn [Nat.iter]; [assumption |].
  now apply Hstep.
Qed.

Lemma momf_step_consistent (BC : row -> row) (dim_x : nat) (acq : acquisition) st :
  consistent_state (get_objective_momf BC) st ->
  consistent_state (get_objective_momf BC) (momf_step BC dim_x acq st).
Proof.
  intros Hst. unfold momf_step, optimize_MOMF_and_get_obs.
  apply update_consistent; [apply get_objective_momf_app | assumption].
Qed.

Lemma kg_step_consistent (BC : row -> row) (b : bounds) (acq : acquisition) st :
  consistent_state (map BC) st -> consistent_state (map BC) (kg_step BC b acq st).
Proof.
  intros Hst. unfold kg_step, optimize_HVKG_and_get_obs.
  apply update_consistent; [apply map_app | assumption].
Qed.

Lemma qnehvi_step_consistent (BC : row -> row) (dim_x : nat) (acq : acquisition) st :
  consistent_state (map BC) st ->
  consistent_state (map BC) (qnehvi_step BC dim_x acq st).
Proof.
  intros Hst. unfold qnehvi_step.
  set (new := optimize_qNEHVI_and_get_obs _ _ _ _ _ _ _).
  replace new with (fst new, map BC (fst new)).
  - apply update_consistent; [apply map_app | assumption].
  - subst new. rewrite <- qnehvi_new_obj. now destruct (optimize_qNEHVI_and_get_obs _ _ _ _ _ _ _).
Qed.

(** X8.  In each loop, started from its own initial state, the ledger is at
    every iteration the cost of the whole dataset, and the observations are
    the objective at the design points, row for row (for MOMF, with the
    fidelity objective appended). *)
Theorem loops_keep_dataset_consistent
        (u : nat -> R) (BC : row -> row) (BC_bounds : bounds) (dim_x : nat)
        (acq : acquisition) :
  (forall fuel st0 k,
      momf_init u BC dim_x fuel = Some st0 ->
      consistent_state (get_objective_momf BC)
                       (Nat.iter k (momf_step BC dim_x acq) st0)) /\
  (forall fuel st0 k,
      kg_init u BC dim_x fuel = Some st0 ->
      consistent_state (map BC) (Nat.iter k (kg_step BC BC_bounds acq) st0)) /\
  (forall k,
      consistent_state (map BC)
                       (Nat.iter k (qnehvi_step BC dim_x acq) (qnehvi_init u BC))) /\
  (forall SMOKE_TEST fuel fuel' st0 fin,
      momf_init u BC dim_x fuel = Some st0 ->
      bo_loop SMOKE_TEST (momf_step BC dim_x acq) fuel' st0 = Some fin ->
      total_cost fin = tsum (cost_callable (train_x fin)) /\
      length (train_obj fin) = length (train_x fin)).
Proof.
  assert (Hmomf : forall fuel st0 k,
             momf_init u BC dim_x fuel = Some st0 ->
             consistent_state (get_objective_momf BC)
                              (Nat.iter k (momf_step BC dim_x acq) st0)).
  { intros fuel st0 k Hinit. apply iter_invariant; [apply momf_step_consistent |].
    unfold momf_init in Hinit.
    destruct (gen_init_data u BC dim_x fuel n_INIT 0) as [[tx tobj] |]; [| discriminate].
    injection Hinit as <-. split; reflexivity. }
  split; [exact Hmomf |]. split; [| split].
  - intros fuel st0 k Hinit. apply iter_invariant; [apply kg_step_consistent |].
    unfold kg_init in Hinit. unfold gen_init_data in Hinit.
    destruct (gen_init_loop u dim_x fuel n_INIT 0 0 []) as [[drawn g'] |];
      [| discriminate].
    injection Hinit as <-. split; reflexivity.
  - intros k. apply iter_invariant; [apply qnehvi_step_consistent |].
    unfold qnehvi_init, torch_rand. split; reflexivity.
  - intros SMOKE_TEST fuel fuel' st0 fin Hinit Hrun.
    destruct (bo_loop_result _ _ _ _ _ Hrun) as (k & _ & -> & _).
    destruct (Hmomf fuel st0 k Hinit) as [Hcost Hobs]. split; [exact Hcost |].
    now rewrite Hobs, get_objective_momf_eq, length_map.
Qed.

(** ** Budget overshoot and number of iterations *)

Lemma cost_func_mono x y : x <= y -> cost_func x <= cost_func y.
Proof.
  intros [H | ->]; [left; now apply cost_func_increasing | lra].
Qed.

Lemma unnormalize_single_cost (d : nat) (b : bounds) (cands : tensor) :
  fidelity_bounds_ok d b ->
  last_coord (snd b) <= 1 ->
  length cands = 1%nat ->
  Forall (fun r => r <> [] /\ length r = d /\ 0 <= last_coord r <= 1) cands ->
  length (unnormalize cands b) = 1%nat /\
  1 <= tsum (cost_callable (unnormalize cands b)) <= cost_func 1.
Proof.
  intros (Hlb & Hub & Hfid) Hub1 Hlen Hrows. destruct b as [lb ub]. cbn [fst snd] in *.
  destruct cands as [| r [| r' cands]]; try discriminate.
  apply Forall_inv in Hrows. destruct Hrows as (Hr & Hd & Hlast).
  cbn [unnormalize map length]. split; [reflexivity |].
  rewrite tsum_cost_cons by (apply unnormalize_row_nonempty; congruence).
  change (tsum (cost_callable [])) with 0.
  rewrite last_coord_unnormalize_row by congruence.
  set (s := last_coord r * (last_coord ub - last_coord lb) + last_coord lb).
  assert (Hs : 0 <= s <= 1) by (subst s; split; nra).
  pose proof (cost_func_ge_1 s (proj1 Hs)).
  pose proof (cost_func_mono s 1 (proj2 Hs)). lra.
Qed.

Lemma qnehvi_new_x_single (BC : row -> row) (acq : acquisition) it tx tobj b :
  length (fst (acq it tx tobj)) = BATCH_SIZE ->
  length (fst (optimize_qNEHVI_and_get_obs BC acq it tx tobj b BATCH_SIZE)) = 1%nat /\
  tsum (cost_callable (fst (optimize_qNEHVI_and_get_obs BC acq it tx tobj b BATCH_SIZE)))
  = cost_func 1.
Proof.
  intros Hlen.
  pose proof (qnehvi_new_x_fidelity BC acq it tx tobj b BATCH_SIZE) as Hfid.
  unfold optimize_qNEHVI_and_get_obs in *. destruct (acq it tx tobj) as [c v].
  cbn [fst] in *. destruct c as [| r [| r' c]]; try discriminate.
  unfold unnormalize, cat_cols, ones, BATCH_SIZE in *.
  cbn [map repeat combine fst snd length] in *.
  split; [reflexivity |]. apply Forall_inv in Hfid.
  rewrite tsum_cost_cons by (destruct (unnormalize_row b r); discriminate).
  rewrite Hfid. change (tsum (cost_callable [])) with 0. lra.
Qed.

Section SingleEvaluation.
Variable BC : row -> row.
Variable BC_bounds : bounds.
Variable dim_x : nat.
Variable acq : acquisition.
Hypothesis dim_x_pos : (0 < dim_x)%nat.

Lemma momf_single_evaluation :
  acq_in_bounds dim_x acq -> single_evaluation_step (momf_step BC dim_x acq).
Proof.
  intros Hacq st. unfold momf_step, update, optimize_MOMF_and_get_obs.
  cbn [iteration train_x total_cost fst].
  destruct (guarded_candidates_rows dim_x acq (iteration st) (train_x st) (train_obj st)
              dim_x_pos Hacq) as [_ Hrows].
  assert (Hlen : length (guarded_candidates acq (iteration st) (train_x st) (train_obj st))
                 = 1%nat).
  { unfold guarded_candidates. destruct (Hacq (iteration st) (train_x st) (train_obj st))
      as [Hl _]. destruct (acq _ _ _) as [c v]. cbn [fst] in Hl.
    now rewrite zero_value_guard_length. }
  assert (Hone : last_coord (snd (standard_bounds dim_x)) <= 1).
  { unfold standard_bounds. cbn [snd]. rewrite last_coord_repeat by assumption. lra. }
  destruct (unnormalize_single_cost dim_x _ _ (standard_bounds_ok dim_x dim_x_pos)
              Hone Hlen Hrows) as [Hl Hc].
  rewrite length_app, Hl. repeat split; [lia | lra | lra].
Qed.

Lemma kg_single_evaluation :
  acq_in_bounds dim_x acq ->
  fidelity_bounds_ok dim_x BC_bounds ->
  last_coord (snd BC_bounds) <= 1 ->
  single_evaluation_step (kg_step BC BC_bounds acq).
Proof.
  intros Hacq Hb Hone st. unfold kg_step, update, optimize_HVKG_and_get_obs.
  cbn [iteration train_x total_cost fst].
  destruct (guarded_candidates_rows dim_x acq (iteration st) (train_x st) (train_obj st)
              dim_x_pos Hacq) as [_ Hrows].
  assert (Hlen : length (guarded_candidates acq (iteration st) (train_x st) (train_obj st))
                 = 1%nat).
  { unfold guarded_candidates. destruct (Hacq (iteration st) (train_x st) (train_obj st))
      as [Hl _]. destruct (acq _ _ _) as [c v]. cbn [fst] in Hl.
    now rewrite zero_value_guard_length. }
  destruct (unnormalize_single_cost dim_x _ _ Hb Hone Hlen Hrows) as [Hl Hc].
  rewrite length_app, Hl. repeat split; [lia | lra | lra].
Qed.

End SingleEvaluation.

Lemma qnehvi_step_exact (BC : row -> row) (dim_x : nat) (acq : acquisition) st :
  (forall it tx tobj, length (fst (acq it tx tobj)) = BATCH_SIZE) ->
  iteration (qnehvi_step BC dim_x acq st) = S (iteration st) /\
  length (train_x (qnehvi_step BC dim_x acq st)) = S (length (train_x st)) /\
  total_cost (qnehvi_step BC dim_x acq st) = total_cost st + cost_func 1.
Proof.
  intros Hacq. unfold qnehvi_step, update. cbn [iteration train_x total_cost].
  destruct (qnehvi_new_x_single BC acq (iteration st) (take_cols 2 (train_x st))
              (train_obj st) (bounds_take 2 (standard_bounds dim_x))
              (Hacq _ _ _)) as [Hl Hc].
  rewrite length_app, Hl, Hc. repeat split. lia.
Qed.

Lemma qnehvi_single_evaluation (BC : row -> row) (dim_x : nat) (acq : acquisition) :
  (forall it tx tobj, length (fst (acq it tx tobj)) = BATCH_SIZE) ->
  single_evaluation_step (qnehvi_step BC dim_x acq).
Proof.
  intros Hacq st. destruct (qnehvi_step_exact BC dim_x acq st Hacq) as (Hit & Hl & Hc).
  rewrite Hc. assert (H01 : 0 <= 1) by lra. pose proof (cost_func_ge_1 1 H01).
  split; [exact Hit |]. split; [exact Hl |]. split; lra.
Qed.

Section SingleEvaluationRun.
Variable SMOKE_TEST : bool.
Variable step : loop_state -> loop_state.
Hypothesis step_single : single_evaluation_step step.

Lemma iter_single_evaluation st0 k :
  iteration (Nat.iter k step st0) = (iteration st0 + k)%nat /\
  length (train_x (Nat.iter k step st0)) = (length (train_x st0) + k)%nat /\
  total_cost st0 + INR k <= total_cost (Nat.iter k step st0)
  <= total_cost st0 + INR k * cost_func 1.
Proof.
  induction k as [| k (IHit & IHlen & IHcost)].
  - change (Nat.iter 0 step st0) with st0. change (INR 0) with 0.
    repeat split; [lia | lia | lra | lra].
  - change (Nat.iter (S k) step st0) with (step (Nat.iter k step st0)).
    destruct (step_single (Nat.iter k step st0)) as (Hit & Hlen & Hcost).
    rewrite Hit, Hlen, IHit, IHlen, S_INR. repeat split; [lia | lia | lra | nra].
Qed.

Lemma bo_loop_overshoot fuel :
  forall st0 fin,
    bo_loop SMOKE_TEST step fuel st0 = Some fin ->
    (total_cost st0 < eval_budget SMOKE_TEST ->
     total_cost fin < eval_budget SMOKE_TEST + cost_func 1) /\
    (~ total_cost st0 < eval_budget SMOKE_TEST -> fin = st0).
Proof.
  induction fuel as [| fuel IH]; intros st0 fin Hrun; cbn [bo_loop] in Hrun;
    [discriminate |].
  destruct (Rlt_dec (total_cost st0) (eval_budget SMOKE_TEST)) as [Hlt | Hge].
  - split; [intros _ | contradiction].
    destruct (IH _ _ Hrun) as [IHlt IHge].
    destruct (Rlt_dec (total_cost (step st0)) (eval_budget SMOKE_TEST)) as [Hlt' | Hge'].
    + now apply IHlt.
    + rewrite (IHge Hge'). destruct (step_single st0) as (_ & _ & Hcost). lra.
  - split; [contradiction | intros _]. now injection Hrun as <-.
Qed.
End SingleEvaluationRun.

(** X9.  Each loop returns, and overshoots its budget by less than one
    full-fidelity evaluation: started below the budget it runs at least one
    iteration and ends with an accumulated cost in
    [[budget, budget + cost 1)], after fewer than [budget - initial cost + 1]
    iterations; started at or above the budget it runs none.  It evaluates
    exactly one point per iteration. *)
Theorem loops_overshoot_bounded
        (SMOKE_TEST : bool) (BC : row -> row) (BC_bounds : bounds) (dim_x : nat)
        (acq_momf acq_kg acq_qnehvi : acquisition)
        (step : loop_state -> loop_state) (st0 : loop_state) :
  (0 < dim_x)%nat ->
  fidelity_bounds_ok dim_x BC_bounds ->
  last_coord (snd BC_bounds) <= 1 ->
  acq_in_bounds dim_x acq_momf ->
  acq_in_bounds dim_x acq_kg ->
  acq_in_bounds 2 acq_qnehvi ->
  In step [momf_step BC dim_x acq_momf;
           kg_step BC BC_bounds acq_kg;
           qnehvi_step BC dim_x acq_qnehvi] ->
  exists k fin,
    bo_loop SMOKE_TEST step (loop_fuel SMOKE_TEST st0) st0 = Some fin /\
    (forall fuel fin', bo_loop SMOKE_TEST step fuel st0 = Some fin' -> fin' = fin) /\
    fin = Nat.iter k step st0 /\
    iteration fin = (iteration st0 + k)%nat /\
    length (train_x fin) = (length (train_x st0) + k)%nat /\
    (total_cost st0 < EVAL_BUDGET SMOKE_TEST * cost_func 1 ->
     (0 < k)%nat /\
     EVAL_BUDGET SMOKE_TEST * cost_func 1 <= total_cost fin
     < EVAL_BUDGET SMOKE_TEST * cost_func 1 + cost_func 1 /\
     INR k < EVAL_BUDGET SMOKE_TEST * cost_func 1 - total_cost st0 + 1) /\
    (~ total_cost st0 < EVAL_BUDGET SMOKE_TEST * cost_func 1 ->
     k = 0%nat /\ fin = st0).
Proof.
  intros Hd Hb Hone Hmomf Hkg Hq Hstep.
  assert (Hsingle : single_evaluation_step step).
  { cbn [In] in Hstep. destruct Hstep as [<- | [<- | [<- | []]]].
    - now apply momf_single_evaluation.
    - now apply kg_single_evaluation with (dim_x := dim_x).
    - exact (qnehvi_single_evaluation BC dim_x acq_qnehvi
               (fun it tx tobj => proj1 (Hq it tx tobj))). }
  assert (Hcost1 : forall st, total_cost st + 1 <= total_cost (step st)).
  { intros st. apply Hsingle. }
  fold (eval_budget SMOKE_TEST).
  destruct (bo_loop_total SMOKE_TEST step Hcost1 st0)
    as (k & Hrun & Huniq & Hcost & Hbefore).
  exists k, (Nat.iter k step st0).
  destruct (iter_single_evaluation step Hsingle st0 k) as (Hit & Hlen & _).
  split; [exact Hrun |]. split; [exact Huniq |]. split; [reflexivity |].
  split; [exact Hit |]. split; [exact Hlen |]. split.
  - intros Hlt.
    destruct (bo_loop_overshoot SMOKE_TEST step Hsingle _ _ _ Hrun) as [Hover _].
    destruct k as [| k].
    + change (Nat.iter 0 step st0) with st0 in Hcost. lra.
    + split; [lia |]. split; [split; [exact Hcost | now apply Hover] |].
      specialize (Hbefore k (Nat.lt_succ_diag_r k)).
      destruct (iter_single_evaluation step Hsingle st0 k) as (_ & _ & [Hlo _]).
      rewrite S_INR. lra.
  - intros Hge. destruct k as [| k]; [now split |].
    specialize (Hbefore 0%nat (Nat.lt_0_succ k)).
    change (Nat.iter 0 step st0) with st0 in Hbefore. contradiction.
Qed.

(** A run that starts with an empty ledger under the smoke-test budget: it
    makes at least one iteration and stops within one full-fidelity
    evaluation of the budget. *)
Lemma loops_overshoot_bounded_witness :
  exists k fin,
    bo_loop true (momf_step (fun r => r) 3 (fun _ _ _ => ([[0; 0; 1]], 1)))
            (loop_fuel true {| train_x := []; train_obj := []; iteration := 0;
                               total_cost := 0 |})
            {| train_x := []; train_obj := []; iteration := 0; total_cost := 0 |}
    = Some fin /\
    (0 < k)%nat /\
    length (train_x fin) = k /\
    EVAL_BUDGET true * cost_func 1 <= total_cost fin
    < EVAL_BUDGET true * cost_func 1 + cost_func 1.
Proof.
  destruct (loops_overshoot_bounded
              true (fun r => r) ([0; 0; 0], [1; 1; 1]) 3
              (fun _ _ _ => ([[0; 0; 1]], 1)) (fun _ _ _ => ([[0; 0; 0]], 1))
              (fun _ _ _ => ([[0; 0]], 1))
              (momf_step (fun r => r) 3 (fun _ _ _ => ([[0; 0; 1]], 1)))
              {| train_x := []; train_obj := []; iteration := 0; total_cost := 0 |})
    as (k & fin & Hrun & _ & _ & _ & Hlen & Hbelow & _).
  - lia.
  - unfold fidelity_bounds_ok, last_coord. cbn. repeat split; lra.
  - unfold last_coord. cbn. lra.
  - intros it tx tobj. split; [reflexivity | repeat constructor; lra].
  - intros it tx tobj. split; [reflexivity | repeat constructor; lra].
  - intros it tx tobj. split; [reflexivity | repeat constructor; lra].
  - left. reflexivity.
  - exists k, fin. cbn [total_cost train_x length Nat.add] in Hbelow, Hlen.
    destruct Hbelow as (Hk & Hcost & _).
    + unfold EVAL_BUDGET. pose proof (cost_func_pos 1). lra.
    + repeat split; try assumption; apply Hcost.
Defined.

(** ** The baseline runs a fixed number of iterations *)

Lemma qnehvi_init_cost (u : nat -> R) (BC : row -> row) :
  total_cost (qnehvi_init u BC) = 2 * cost_func 1 /\
  length (train_x (qnehvi_init u BC)) = 2%nat /\
  iteration (qnehvi_init u BC) = 0%nat.
Proof.
  unfold qnehvi_init, torch_rand, set_last_col.
  cbn [total_cost train_x iteration seq map length].
  rewrite !tsum_cost_cons by apply set_last_nonempty.
  rewrite !last_coord_set_last. change (tsum (cost_callable [])) with 0.
  repeat split. lra.
Qed.

(** X10.  The qNEHVI loop evaluates every point at full fidelity, so its
    length is fixed by the budget alone: starting from its two initial
    points it runs exactly two iterations for [EVAL_BUDGET = 4] and exactly
    one for the smoke-test budget [2.1], ending with four (three) points and
    an accumulated cost of four (three) full-fidelity evaluations. *)
Theorem qnehvi_iteration_count
        (SMOKE_TEST : bool) (u : nat -> R) (BC : row -> row) (dim_x : nat)
        (acq : acquisition) (fuel : nat) :
  (forall it tx tobj, length (fst (acq it tx tobj)) = BATCH_SIZE) ->
  exists fin,
    bo_loop SMOKE_TEST (qnehvi_step BC dim_x acq) (S (S (S fuel))) (qnehvi_init u BC)
    = Some fin /\
    fin = Nat.iter (if SMOKE_TEST then 1 else 2) (qnehvi_step BC dim_x acq)
                   (qnehvi_init u BC) /\
    iteration fin = (if SMOKE_TEST then 1 else 2)%nat /\
    length (train_x fin) = (if SMOKE_TEST then 3 else 4)%nat /\
    total_cost fin = (if SMOKE_TEST then 3 else 4) * cost_func 1.
Proof.
  intros Hacq.
  destruct (qnehvi_init_cost u BC) as (H0 & Hl0 & Hi0).
  set (step := qnehvi_step BC dim_x acq) in *.
  set (st0 := qnehvi_init u BC) in *.
  destruct (qnehvi_step_exact BC dim_x acq st0 Hacq) as (Hi1 & Hl1 & H1).
  destruct (qnehvi_step_exact BC dim_x acq (step st0) Hacq) as (Hi2 & Hl2 & H2).
  fold step in Hi1, Hl1, H1, Hi2, Hl2, H2.
  pose proof (cost_func_pos 1) as Hc.
  cbn [bo_loop]. unfold eval_budget, EVAL_BUDGET.
  destruct SMOKE_TEST.
  - exists (step st0).
    destruct (Rlt_dec (total_cost st0) (2.1 * cost_func 1)); [| lra].
    destruct (Rlt_dec (total_cost (step st0)) (2.1 * cost_func 1)); [lra |].
    split; [reflexivity |]. split; [reflexivity |].
    split; [congruence |]. split; [congruence |]. lra.
  - exists (step (step st0)).
    destruct (Rlt_dec (total_cost st0) (4 * cost_func 1)); [| lra].
    destruct (Rlt_dec (total_cost (step st0)) (4 * cost_func 1)); [| lra].
    destruct (Rlt_dec (total_cost (step (step st0))) (4 * cost_func 1)); [lra |].
    split; [reflexivity |]. split; [reflexivity |].
    split; [congruence |]. split; [congruence |]. lra.
Qed.

Lemma qnehvi_iteration_count_witness :
  exists fin,
    bo_loop false (qnehvi_step (fun r => r) 3 (fun _ _ _ => ([[0; 0]], 1))) 3
            (qnehvi_init (fun _ => 0) (fun r => r))
    = Some fin /\
    fin = Nat.iter 2 (qnehvi_step (fun r => r) 3 (fun _ _ _ => ([[0; 0]], 1)))
                   (qnehvi_init (fun _ => 0) (fun r => r)) /\
    iteration fin = 2%nat /\
    length (train_x fin) = 4%nat /\
    total_cost fin = 4 * cost_func 1.
Proof.
  apply (qnehvi_iteration_count false (fun _ => 0) (fun r => r) 3
                                (fun _ _ _ => ([[0; 0]], 1)) 0).
  intros it tx tobj. reflexivity.
Defined.

(** ** Every design point of a dataset lies within the bounds *)

Lemma zero_value_guard_in_box (d : nat) (c : tensor) (v : R) :
  (0 < d)%nat ->
  Forall (in_unit_box d) c -> Forall (in_unit_box d) (zero_value_guard c v).
Proof.
  intros Hd Hc. unfold zero_value_guard, set_last_col.
  destruct (Req_dec_T v 0); [| assumption].
  apply Forall_map. eapply Forall_impl; [| exact Hc].
  intros r Hr. apply in_unit_box_set_last; [assumption.. | lra].
Qed.

Lemma guarded_candidates_in_box (d : nat) (acq : acquisition) it tx tobj :
  (0 < d)%nat -> acq_in_bounds d acq ->
  Forall (in_unit_box d) (guarded_candidates acq it tx tobj).
Proof.
  intros Hd Hacq. unfold guarded_candidates.
  destruct (Hacq it tx tobj) as [_ Hbox]. destruct (acq it tx tobj) as [c v].
  now apply zero_value_guard_in_box.
Qed.

Lemma in_unit_box_length (d : nat) (X : tensor) :
  Forall (in_unit_box d) X -> Forall (fun r => length r = d) X.
Proof. intros HX. eapply Forall_impl; [| exact HX]. now intros r [Hr _]. Qed.

Lemma firstn_repeat_le {A} (a : A) (k : nat) :
  forall d, (k <= d)%nat -> firstn k (repeat a d) = repeat a k.
Proof.
  induction k as [| k IH]; intros d Hk; [reflexivity |].
  destruct d as [| d]; [lia |]. cbn [repeat firstn]. f_equal. apply IH. lia.
Qed.

Lemma bounds_take_standard (k d : nat) :
  (k <= d)%nat -> bounds_take k (standard_bounds d) = standard_bounds k.
Proof.
  intros Hk. unfold bounds_take, standard_bounds. cbn [fst snd].
  now rewrite !firstn_repeat_le.
Qed.

Lemma cat_cols_ones_in_box (d : nat) (X : tensor) (q : nat) :
  Forall (in_unit_box d) X -> Forall (in_unit_box (S d)) (cat_cols X (ones q 1)).
Proof.
  unfold cat_cols, ones. cbn [repeat]. intros HX. revert q.
  induction HX as [| r X Hr _ IH]; intros q; [constructor |].
  destruct q as [| q]; [constructor |].
  cbn [repeat combine map fst snd]. constructor; [| apply IH].
  apply in_unit_box_app; [assumption | lra].
Qed.

Lemma gen_init_data_in_box (u : nat -> R) (BC : row -> row) (dim_x : nat)
      (fuel : nat) (n : R) (g : nat) (tx tobj : tensor) :
  (0 < dim_x)%nat ->
  (forall i, 0 <= u i < 1) ->
  gen_init_data u BC dim_x fuel n g = Some (tx, tobj) ->
  Forall (in_unit_box dim_x) tx.
Proof.
  intros Hd Hu Hdata. unfold gen_init_data in Hdata.
  destruct (gen_init_loop u dim_x fuel n g 0 []) as [[drawn g'] |] eqn:Hrun;
    [| discriminate].
  injection Hdata as <- _.
  pose proof (gen_init_loop_sampled u dim_x Hd Hu fuel _ _ _ _ _ _ Hrun
                (Forall_nil _)) as Hall.
  apply Forall_removelast. eapply Forall_impl; [| exact Hall]. now intros r [Hr _].
Qed.

Lemma update_in_box (d : nat) (st : loop_state) (new : tensor * tensor) :
  Forall (in_unit_box d) (train_x st) ->
  Forall (in_unit_box d) (fst new) ->
  Forall (in_unit_box d) (train_x (update st new)).
Proof.
  intros Hst Hnew. unfold update. cbn [train_x]. apply Forall_app. now split.
Qed.

(** X11.  Every design point of every dataset lies within the unit box of
    the problem's inputs, at every iteration: the initial points because they
    are uniform draws with a transformed (or full) fidelity, the later points
    because they are the optimiser's candidates, which the loops at most
    change in their fidelity coordinate, to [0] or to [1]. *)
Theorem datasets_within_bounds
        (u : nat -> R) (BC : row -> row) (dim_x : nat)
        (acq_momf acq_kg acq_qnehvi : acquisition) :
  (2 <= dim_x)%nat ->
  (forall i, 0 <= u i < 1) ->
  acq_in_bounds dim_x acq_momf ->
  acq_in_bounds dim_x acq_kg ->
  acq_in_bounds 2 acq_qnehvi ->
  (forall fuel st0 k,
      momf_init u BC dim_x fuel = Some st0 ->
      Forall (in_unit_box dim_x)
             (train_x (Nat.iter k (momf_step BC dim_x acq_momf) st0))) /\
  (forall fuel st0 k,
      kg_init u BC dim_x fuel = Some st0 ->
      Forall (in_unit_box dim_x)
             (train_x (Nat.iter k (kg_step BC (standard_bounds dim_x) acq_kg) st0))) /\
  (forall k,
      Forall (in_unit_box 3)
             (train_x (Nat.iter k (qnehvi_step BC dim_x acq_qnehvi) (qnehvi_init u BC)))).
Proof.
  intros Hd Hu Hmomf Hkg Hq.
  assert (Hd0 : (0 < dim_x)%nat) by lia.
  split; [| split].
  - intros fuel st0 k Hinit.
    apply (iter_invariant (fun st => Forall (in_unit_box dim_x) (train_x st))).
    + intros st Hst. unfold momf_step, optimize_MOMF_and_get_obs.
      apply update_in_box; [assumption |]. cbn [fst].
      pose proof (guarded_candidates_in_box dim_x acq_momf (iteration st) (train_x st)
                    (train_obj st) Hd0 Hmomf) as Hbox.
      now rewrite (unnormalize_standard dim_x _ (in_unit_box_length _ _ Hbox)).
    + unfold momf_init in Hinit.
      destruct (gen_init_data u BC dim_x fuel n_INIT 0) as [[tx tobj] |] eqn:Hdata;
        [| discriminate].
      injection Hinit as <-. cbn [train_x].
      now apply (gen_init_data_in_box u BC dim_x fuel n_INIT 0 tx tobj).
  - intros fuel st0 k Hinit.
    apply (iter_invariant (fun st => Forall (in_unit_box dim_x) (train_x st))).
    + intros st Hst. unfold kg_step, optimize_HVKG_and_get_obs.
      apply update_in_box; [assumption |]. cbn [fst].
      pose proof (guarded_candidates_in_box dim_x acq_kg (iteration st) (train_x st)
                    (train_obj st) Hd0 Hkg) as Hbox.
      now rewrite (unnormalize_standard dim_x _ (in_unit_box_length _ _ Hbox)).
    + unfold kg_init in Hinit.
      destruct (gen_init_data u BC dim_x fuel n_INIT 0) as [[tx tobj] |] eqn:Hdata;
        [| discriminate].
      injection Hinit as <-. cbn [train_x].
      now apply (gen_init_data_in_box u BC dim_x fuel n_INIT 0 tx tobj).
  - intros k.
    apply (iter_invariant (fun st => Forall (in_unit_box 3) (train_x st))).
    + intros st Hst. unfold qnehvi_step. apply update_in_box; [assumption |].
      unfold optimize_qNEHVI_and_get_obs.
      destruct (Hq (iteration st) (take_cols 2 (train_x st)) (train_obj st)) as [_ Hbox].
      destruct (acq_qnehvi _ _ _) as [c v]. cbn [fst] in *.
      rewrite bounds_take_standard by assumption.
      rewrite (unnormalize_standard 2 _ (in_unit_box_length _ _ Hbox)).
      now apply cat_cols_ones_in_box.
    + unfold qnehvi_init. cbn [train_x].
      pose proof (torch_rand_in_box u 0 2 3 Hu) as Hrand.
      destruct (torch_rand u 0 2 3) as [X g']. cbn [fst train_x] in *.
      unfold set_last_col. apply Forall_map.
      eapply Forall_impl; [| exact Hrand].
      intros r Hr. apply in_unit_box_set_last; [lia | assumption | lra].
Qed.

Lemma datasets_within_bounds_witness :
  Forall (in_unit_box 3)
         (train_x (Nat.iter 2 (qnehvi_step (fun r => r) 3 (fun _ _ _ => ([[0; 0]], 1)))
                            (qnehvi_init (fun _ => 0) (fun r => r)))).
Proof.
  refine (proj2 (proj2 (datasets_within_bounds
                          (fun _ => 0) (fun r => r) 3
                          (fun _ _ _ => ([[0; 0; 0]], 1)) (fun _ _ _ => ([[0; 0; 0]], 1))
                          (fun _ _ _ => ([[0; 0]], 1)) _ _ _ _ _)) 2%nat).
  - lia.
  - intros i. lra.
  - intros it tx tobj. split; [reflexivity | repeat constructor; lra].
  - intros it tx tobj. split; [reflexivity | repeat constructor; lra].
  - intros it tx tobj. split; [reflexivity | repeat constructor; lra].
Defined.

(** ** The Pareto evaluator: chunks, candidates, fidelity of the designs *)

Lemma range_step_In (n c start : nat) :
  (0 < c)%nat -> In start (range_step n c) -> (start < n)%nat.
Proof.
  intros Hc Hin. unfold range_step in Hin.
  apply in_map_iff in Hin. destruct Hin as (i & <- & Hi).
  apply in_seq in Hi.
  pose proof (Nat.Div0.mul_div_le (n + c - 1) c) as Hdiv. nia.
Qed.

(** X12.  The discretized evaluator asks the model for its posterior mean
    in chunks: no call is empty or gets more than [CHUNK_SIZE = 512]
    candidates, there are 196 calls for the 100000 candidates (one for the
    100 of the smoke test), and the concatenated answers are the predictions
    for all the candidates, in order. *)
Theorem chunked_evaluation
        (SMOKE_TEST : bool) (posterior_mean : row -> row) (X : tensor) :
  length X = NUM_DISCRETE_POINTS SMOKE_TEST ->
  chunked_preds SMOKE_TEST posterior_mean X = map posterior_mean X /\
  length (range_step (NUM_DISCRETE_POINTS SMOKE_TEST) CHUNK_SIZE)
  = (if SMOKE_TEST then 1 else 196)%nat /\
  Forall (fun start =>
            (0 < length (firstn CHUNK_SIZE (skipn start X)) <= CHUNK_SIZE)%nat)
         (range_step (NUM_DISCRETE_POINTS SMOKE_TEST) CHUNK_SIZE).
Proof.
  intros Hlen. split; [now apply chunked_preds_eq |]. split.
  - unfold range_step. rewrite length_map, length_seq.
    destruct SMOKE_TEST; vm_compute; reflexivity.
  - apply Forall_forall. intros start Hin.
    apply range_step_In in Hin; [| unfold CHUNK_SIZE; lia].
    rewrite length_firstn, length_skipn, Hlen. unfold CHUNK_SIZE in *. lia.
Qed.

Lemma chunked_evaluation_witness :
  chunked_preds true (fun r => r) (repeat [0] 100) = map (fun r => r) (repeat [0] 100).
Proof.
  apply (chunked_evaluation true (fun r => r) (repeat [0] 100)).
  apply repeat_length.
Defined.

Lemma torch_rand_length (u : nat -> R) (g q d : nat) :
  Forall (fun r => length r = d) (fst (torch_rand u g q d)).
Proof.
  unfold torch_rand. cbn [fst]. apply Forall_map, Forall_forall.
  intros i _. now rewrite length_map, length_seq.
Qed.

(** X13.  The candidates of the discretized evaluator always have their last
    column set to [1].  For a multi-fidelity model that column is the
    fidelity: the candidates are the uniform draws with the fidelity [1]
    appended.  For the single-fidelity model the candidates have no fidelity
    column yet, so it is the last design coordinate of every draw that is
    replaced by [1]; projected, those candidates end in [1; 1]. *)
Theorem discrete_set_last_column
        (SMOKE_TEST : bool) (u : nat -> R) (dim_x g : nat) :
  (2 <= dim_x)%nat ->
  discrete_set SMOKE_TEST u dim_x g true
  = map (fun r => r ++ [1])
        (fst (torch_rand u g (NUM_DISCRETE_POINTS SMOKE_TEST) (dim_x - 1))) /\
  discrete_set SMOKE_TEST u dim_x g false
  = map (fun r => removelast r ++ [1])
        (fst (torch_rand u g (NUM_DISCRETE_POINTS SMOKE_TEST) (dim_x - 1))) /\
  project dim_x (discrete_set SMOKE_TEST u dim_x g false)
  = map (fun r => removelast r ++ [1; 1])
        (fst (torch_rand u g (NUM_DISCRETE_POINTS SMOKE_TEST) (dim_x - 1))).
Proof.
  intros Hd. unfold discrete_set.
  pose proof (torch_rand_length u g (NUM_DISCRETE_POINTS SMOKE_TEST) (dim_x - 1)) as Hlen.
  destruct (torch_rand u g (NUM_DISCRETE_POINTS SMOKE_TEST) (dim_x - 1)) as [X g'].
  cbn [fst] in *. unfold set_last_col, project. rewrite !map_map.
  rewrite Forall_forall in Hlen.
  split; [| split]; apply map_ext_in; intros r Hr; specialize (Hlen r Hr).
  - unfold project_row. destruct (Nat.eqb_spec (length r) dim_x) as [Heq | _]; [lia |].
    unfold set_last. now rewrite removelast_last.
  - reflexivity.
  - unfold project_row. rewrite set_last_length by (intros ->; cbn in Hlen; lia).
    destruct (Nat.eqb_spec (length r) dim_x) as [Heq | _]; [lia |].
    unfold set_last. rewrite normalized_target_fidelity_eq, <- app_assoc. reflexivity.
Qed.

Lemma discrete_set_last_column_witness :
  discrete_set true (fun _ => 0) 3 0 false
  = map (fun r => removelast r ++ [1])
        (fst (torch_rand (fun _ => 0) 0 (NUM_DISCRETE_POINTS true) (3 - 1))).
Proof.
  refine (proj1 (proj2 (discrete_set_last_column true (fun _ => 0) 3 0 _))). lia.
Defined.

Lemma project_row_target (d : nat) (r : row) :
  (0 < d)%nat ->
  length r = (d - 1)%nat \/ length r = d ->
  length (project_row d r) = d /\ last_coord (project_row d r) = 1.
Proof.
  intros Hd Hlen. unfold project_row. rewrite normalized_target_fidelity_eq.
  destruct (Nat.eqb_spec (length r) d) as [Heq | Hne].
  - rewrite last_coord_set_last, set_last_length; [now split |].
    intros ->. cbn in Heq. lia.
  - destruct Hlen as [Hlen | Hlen]; [| contradiction].
    rewrite length_app. cbn [length]. split; [lia |].
    unfold last_coord. apply last_last.
Qed.

Lemma project_target (d k : nat) (X : tensor) :
  (0 < d)%nat ->
  k = (d - 1)%nat \/ k = d ->
  Forall (fun r => length r = k) X ->
  Forall (fun r => length r = d /\ last_coord r = 1) (project d X).
Proof.
  intros Hd Hk HX. unfold project. apply Forall_map.
  eapply Forall_impl; [| exact HX]. intros r Hr.
  apply project_row_target; [assumption |]. destruct Hk as [-> | ->]; auto.
Qed.

Lemma unnormalize_target (d : nat) (b : bounds) (X : tensor) :
  (0 < d)%nat ->
  length (fst b) = d -> length (snd b) = d ->
  Forall (fun r => length r = d /\ last_coord r = 1) X ->
  Forall (fun r => length r = d /\ last_coord r = last_coord (snd b)) (unnormalize X b).
Proof.
  intros Hd Hlb Hub HX. destruct b as [lb ub]. cbn [fst snd] in *.
  apply Forall_map. eapply Forall_impl; [| exact HX]. intros r [Hlen Hone].
  assert (Hne : r <> []) by (intros ->; cbn in Hlen; lia).
  rewrite last_coord_unnormalize_row, Hone by congruence. split; [| lra].
  unfold unnormalize_row. cbn [fst snd].
  rewrite length_map, !length_combine. lia.
Qed.

(** X14.  Both strategies of [get_pareto] observe the true objective only at
    the target fidelity: the hypervolume they return is the hypervolume of
    the objective at designs of [dim_x] coordinates whose fidelity is the
    upper fidelity bound of [BC.bounds], for a multi-fidelity model and for
    the single-fidelity one alike. *)
Theorem get_pareto_observes_at_target_fidelity
        (SMOKE_TEST : bool) (u : nat -> R) (BC : row -> row) (BC_bounds : bounds)
        (BC_ref_point : row) (dim_x : nat) (posterior_mean : row -> row)
        (compute_hypervolume : row -> tensor -> R)
        (is_non_dominated : tensor -> list bool)
        (minimize : nat -> (tensor -> tensor) -> nat -> nat -> tensor)
        (g : nat) (non_fidelity_indices : list nat)
        (population_size max_gen : nat) (is_mf_model : bool) :
  (2 <= dim_x)%nat ->
  S (length non_fidelity_indices) = dim_x ->
  length (fst BC_bounds) = dim_x ->
  length (snd BC_bounds) = dim_x ->
  minimize_in_box minimize ->
  (exists designs,
      get_pareto_discretized SMOKE_TEST u BC BC_bounds BC_ref_point dim_x
                             posterior_mean compute_hypervolume g is_mf_model
      = compute_hypervolume BC_ref_point (map BC designs) /\
      Forall (fun r => length r = dim_x /\
                       last_coord r = last_coord (snd BC_bounds)) designs) /\
  (exists designs,
      get_pareto_nsga2 BC BC_bounds BC_ref_point dim_x posterior_mean
                       compute_hypervolume is_non_dominated minimize
                       non_fidelity_indices population_size max_gen is_mf_model
      = compute_hypervolume BC_ref_point (map BC designs) /\
      Forall (fun r => length r = dim_x /\
                       last_coord r = last_coord (snd BC_bounds)) designs).
Proof.
  intros Hd Hdim Hlb Hub Hmin.
  assert (Hd0 : (0 < dim_x)%nat) by lia.
  split.
  - eexists. split; [reflexivity |].
    apply (unnormalize_target dim_x); try assumption.
    unfold discrete_pareto_X.
    assert (Hset : forall k X, (0 < k)%nat -> Forall (fun r => length r = k) X ->
                     Forall (fun r => length r = k /\ last_coord r = 1)
                            (set_last_col 1 X)).
    { intros k X Hk HX. unfold set_last_col. apply Forall_map.
      eapply Forall_impl; [| exact HX]. intros r Hr.
      rewrite last_coord_set_last, set_last_length; [now split |].
      intros ->. cbn in Hr. lia. }
    unfold discrete_set.
    pose proof (torch_rand_length u g (NUM_DISCRETE_POINTS SMOKE_TEST) (dim_x - 1))
      as Hrand.
    destruct (torch_rand u g (NUM_DISCRETE_POINTS SMOKE_TEST) (dim_x - 1)) as [X0 g'].
    cbn [fst] in Hrand. destruct is_mf_model.
    + apply select_Forall, Hset; [assumption |].
      pose proof (project_target dim_x (dim_x - 1) X0 Hd0 (or_introl eq_refl) Hrand) as Hp.
      eapply Forall_impl; [| exact Hp]. now intros r [Hr _].
    + apply (project_target dim_x (dim_x - 1)); [assumption | now left |].
      apply select_Forall.
      pose proof (Hset (dim_x - 1)%nat X0 ltac:(lia) Hrand) as Hs.
      eapply Forall_impl; [| exact Hs]. now intros r [Hr _].
  - eexists. split; [reflexivity |].
    apply (unnormalize_target dim_x); try assumption.
    pose proof (Hmin (length non_fidelity_indices)
                     (_evaluate dim_x posterior_mean is_mf_model)
                     population_size max_gen) as HX.
    apply in_unit_box_length in HX.
    replace (length non_fidelity_indices) with (dim_x - 1)%nat in * by lia.
    destruct is_mf_model.
    + apply select_Forall. apply (project_target dim_x (dim_x - 1)); auto.
    + apply (project_target dim_x (dim_x - 1)); [assumption | now left |].
      now apply select_Forall.
Qed.

Lemma get_pareto_observes_at_target_fidelity_witness :
  exists designs,
    get_pareto_discretized true (fun _ => 0) (fun r => r) ([0; 0; 0], [1; 1; 1]) [0; 0] 3
                           (fun r => r)
                           (fun _ Y => match Y with [] => 0 | _ => 1 end) 0 false
    = match map (fun r : row => r) designs with [] => 0 | _ => 1 end /\
    Forall (fun r => length r = 3%nat /\
                     last_coord r = last_coord (snd ([0; 0; 0], [1; 1; 1]))) designs.
Proof.
  refine (proj1 (get_pareto_observes_at_target_fidelity
                   true (fun _ => 0) (fun r => r) ([0; 0; 0], [1; 1; 1]) [0; 0] 3
                   (fun r => r) (fun _ Y => match Y with [] => 0 | _ => 1 end)
                   (fun Y => map (fun _ => true) Y)
                   (fun n _ _ _ => [repeat 0 n])
                   0 [0%nat; 1%nat] 250 100 false _ _ _ _ _)).
  - lia.
  - reflexivity.
  - reflexivity.
  - reflexivity.
  - intros n ev pop gen. constructor; [| constructor]. split.
    + apply repeat_length.
    + apply Forall_forall. intros x Hx. apply repeat_spec in Hx. subst. lra.
Defined.

(** ** Evaluation checkpoints *)

Lemma range3_length (start stop step : nat) :
  length (range3 start stop step) = ((stop - start + step - 1) / step)%nat.
Proof. unfold range3. now rewrite length_map, length_seq. Qed.

Lemma range3_nth (start stop step k : nat) :
  (k < length (range3 start stop step))%nat ->
  nth k (range3 start stop step) 0%nat = (start + k * step)%nat.
Proof.
  intros Hk. rewrite range3_length in Hk. unfold range3.
  rewrite (nth_indep _ 0%nat ((fun i => start + i * step) 0)%nat)
    by now rewrite length_map, length_seq.
  rewrite (map_nth (fun i => start + i * step)%nat), seq_nth by assumption.
  reflexivity.
Qed.

Lemma range3_In (start stop step i : nat) :
  (0 < step)%nat ->
  In i (range3 start stop step) -> (start <= i < stop)%nat.
Proof.
  intros Hs Hin. unfold range3 in Hin.
  apply in_map_iff in Hin. destruct Hin as (k & <- & Hk). apply in_seq in Hk.
  pose proof (Nat.Div0.mul_div_le (stop - start + step - 1) step) as Hdiv. nia.
Qed.

Example range3_by_five : range3 3 14 5 = [3; 8; 13]%nat.
Proof. reflexivity. Qed.

Example range3_empty : range3 7 7 5 = [].
Proof. reflexivity. Qed.

Lemma prefix_cost_mono (X : tensor) (i j : nat) :
  (i <= j)%nat ->
  tsum (cost_callable (firstn i X)) <= tsum (cost_callable (firstn j X)).
Proof.
  intros Hij.
  rewrite <- (firstn_skipn i (firstn j X)), firstn_firstn, Nat.min_l by assumption.
  rewrite cost_callable_app, tsum_app.
  pose proof (tsum_cost_nonneg (skipn i (firstn j X))). lra.
Qed.

Lemma checkpoint_costs_nth (X : tensor) (l : list nat) (k : nat) :
  nth k (map (fun i => tsum (cost_callable (firstn i X))) l) 0
  = tsum (cost_callable (firstn (nth k l 0%nat) X)).
Proof.
  change 0 with ((fun i => tsum (cost_callable (firstn i X))) 0%nat) at 1.
  apply map_nth.
Qed.

Lemma checkpoint_costs_sorted (X : tensor) (start stop step a b : nat) :
  (a <= b < length (range3 start stop step))%nat ->
  nth a (map (fun i => tsum (cost_callable (firstn i X))) (range3 start stop step)) 0
  <= nth b (map (fun i => tsum (cost_callable (firstn i X))) (range3 start stop step)) 0.
Proof.
  intros [Hab Hb]. rewrite !checkpoint_costs_nth, !range3_nth by lia.
  apply prefix_cost_mono. nia.
Qed.

(** X15.  In each of the three evaluations the list of hypervolumes and the
    list of costs have one entry per checkpoint, so they can be plotted
    against one another, and the costs never decrease from one checkpoint to
    the next. *)
Theorem evaluation_costs_sorted
        (hypervolume_of : tensor -> tensor -> R) (MF_n_INIT : nat)
        (tx tobj : tensor) (hvs costs : list R) :
  In (hvs, costs) [evaluate_kg hypervolume_of MF_n_INIT tx tobj;
                   evaluate_momf hypervolume_of MF_n_INIT tx tobj;
                   evaluate_qnehvi hypervolume_of tx tobj] ->
  length hvs = length costs /\
  forall a b, (a <= b < length costs)%nat -> nth a costs 0 <= nth b costs 0.
Proof.
  unfold evaluate_kg, evaluate_momf, evaluate_qnehvi. cbn [In].
  intros [Heq | [Heq | [Heq | []]]]; injection Heq as <- <-;
    (split; [now rewrite !length_map |]); intros a b Hab;
    rewrite length_map in Hab; now apply checkpoint_costs_sorted.
Qed.

Lemma evaluation_costs_sorted_witness :
  length (fst (evaluate_kg (fun _ _ => 0) 1 [[0; 0; 0]; [0; 0; 1]] [[0]; [1]]))
  = length (snd (evaluate_kg (fun _ _ => 0) 1 [[0; 0; 0]; [0; 0; 1]] [[0]; [1]])).
Proof.
  refine (proj1 (evaluation_costs_sorted
                   (fun _ _ => 0) 1 [[0; 0; 0]; [0; 0; 1]] [[0]; [1]] _ _ _)).
  left. reflexivity.
Defined.

Lemma range3_unit (start stop : nat) :
  range3 start stop 1 = seq start (stop - start).
Proof.
  unfold range3. replace (stop - start + 1 - 1)%nat with (stop - start)%nat by lia.
  rewrite Nat.div_1_r. generalize (stop - start)%nat as n. intros n.
  revert start. induction n as [| n IH]; intros start; [reflexivity |].
  cbn [seq map]. f_equal; [lia |].
  rewrite <- seq_shift, map_map, <- (IH (S start)). apply map_ext. intros i. lia.
Qed.

Lemma last_seq (start len : nat) :
  last (seq start (S len)) 0%nat = (start + len)%nat.
Proof.
  rewrite seq_S, last_last. reflexivity.
Qed.

Lemma last_map_nonempty {A B} (f : A -> B) (l : list A) (a : A) (b : B) :
  l <> [] -> last (map f l) b = f (last l a).
Proof.
  intros Hl. destruct (exists_last Hl) as (l' & x & ->).
  rewrite map_app. cbn [map]. now rewrite !last_last.
Qed.

Lemma last_as_nth {A} (l : list A) (d : A) :
  last l d = nth (length l - 1) l d.
Proof.
  destruct l as [| a l]; [reflexivity |].
  assert (Hne : a :: l <> []) by discriminate.
  destruct (exists_last Hne) as (l' & x & ->).
  rewrite last_last, length_app. cbn [length].
  replace (length l' + 1 - 1)%nat with (length l') by lia.
  now rewrite nth_middle.
Qed.

(** X16.  Which checkpoints are evaluated.  When the run holds [N] points
    and the first checkpoint [s] is at most [N]: MOMF and qNEHVI are
    evaluated at all [N - s + 1] sizes from [s] to [N], the last cost being
    the cost of the whole dataset; MF-HVKG is evaluated at [(N - s) / 5 + 1]
    sizes, the first cost being that of its initial [s] points and the last
    checkpoint leaving out the final [(N - s) mod 5] points.  When [s]
    exceeds [N] nothing is evaluated. *)
Theorem evaluation_checkpoints
        (hypervolume_of : tensor -> tensor -> R) (MF_n_INIT : nat) (tx tobj : tensor) :
  ((MF_n_INIT <= length tx)%nat ->
   length (snd (evaluate_momf hypervolume_of MF_n_INIT tx tobj))
   = (length tx - MF_n_INIT + 1)%nat /\
   last (snd (evaluate_momf hypervolume_of MF_n_INIT tx tobj)) 0
   = tsum (cost_callable tx) /\
   length (snd (evaluate_kg hypervolume_of MF_n_INIT tx tobj))
   = ((length tx - MF_n_INIT) / 5 + 1)%nat /\
   nth 0 (snd (evaluate_kg hypervolume_of MF_n_INIT tx tobj)) 0
   = tsum (cost_callable (firstn MF_n_INIT tx)) /\
   last (snd (evaluate_kg hypervolume_of MF_n_INIT tx tobj)) 0
   = tsum (cost_callable
             (firstn (length tx - (length tx - MF_n_INIT) mod 5) tx))) /\
  ((2 <= length tx)%nat ->
   length (snd (evaluate_qnehvi hypervolume_of tx tobj)) = (length tx - 1)%nat /\
   last (snd (evaluate_qnehvi hypervolume_of tx tobj)) 0 = tsum (cost_callable tx)) /\
  ((length tx < MF_n_INIT)%nat ->
   evaluate_momf hypervolume_of MF_n_INIT tx tobj = ([], []) /\
   evaluate_kg hypervolume_of MF_n_INIT tx tobj = ([], [])).
Proof.
  assert (Hunit : forall s, (s <= length tx)%nat ->
            length (map (fun i => tsum (cost_callable (firstn i tx)))
                        (range3 s (length tx + 1) 1))
            = (length tx - s + 1)%nat /\
            last (map (fun i => tsum (cost_callable (firstn i tx)))
                      (range3 s (length tx + 1) 1)) 0
            = tsum (cost_callable tx)).
  { intros s Hs. rewrite range3_unit.
    replace (length tx + 1 - s)%nat with (S (length tx - s)) by lia.
    split; [rewrite length_map, length_seq; lia |].
    rewrite (last_map_nonempty _ _ 0%nat) by discriminate.
    rewrite last_seq. replace (s + (length tx - s))%nat with (length tx) by lia.
    now rewrite firstn_all. }
  split; [| split].
  - intros Hs. unfold evaluate_momf, evaluate_kg. cbn [snd].
    destruct (Hunit MF_n_INIT Hs) as [Hlen Hlast].
    split; [exact Hlen |]. split; [exact Hlast |].
    assert (Hcount : length (range3 MF_n_INIT (length tx + 1) 5)
                     = ((length tx - MF_n_INIT) / 5 + 1)%nat).
    { rewrite range3_length.
      replace (length tx + 1 - MF_n_INIT + 5 - 1)%nat
        with (length tx - MF_n_INIT + 1 * 5)%nat by lia.
      now rewrite Nat.div_add. }
    split; [now rewrite length_map |]. split.
    + rewrite checkpoint_costs_nth, range3_nth by lia. do 3 f_equal. lia.
    + rewrite last_as_nth, length_map, Hcount.
      replace ((length tx - MF_n_INIT) / 5 + 1 - 1)%nat
        with ((length tx - MF_n_INIT) / 5)%nat by lia.
      rewrite !checkpoint_costs_nth, range3_nth by lia. do 3 f_equal.
      pose proof (Nat.div_mod_eq (length tx - MF_n_INIT) 5). lia.
  - intros Hs. unfold evaluate_qnehvi. cbn [snd].
    destruct (Hunit 2%nat Hs) as [Hlen Hlast]. split; [rewrite Hlen; lia | exact Hlast].
  - intros Hs. unfold evaluate_momf, evaluate_kg, range3.
    replace (length tx + 1 - MF_n_INIT)%nat with 0%nat by lia.
    split; reflexivity.
Qed.

Lemma evaluation_checkpoints_witness :
  length (snd (evaluate_qnehvi (fun _ _ => 0) [[0; 0; 1]; [0; 0; 1]; [0; 0; 1]] []))
  = (length [[0; 0; 1]; [0; 0; 1]; [0; 0; 1]] - 1)%nat.
Proof.
  refine (proj1 (proj1 (proj2 (evaluation_checkpoints
                                 (fun _ _ => 0) 2 [[0; 0; 1]; [0; 0; 1]; [0; 0; 1]] []))
                       _)).
  cbn [length]. lia.
Defined.

(** X17.  The evaluation of MOMF fits its model on the two problem
    objectives only: taking the first two columns of MOMF's observations
    undoes the appended fidelity objective and gives the objective at the
    design points, for the whole dataset and for every prefix of it. *)
Theorem momf_evaluation_objectives (BC : row -> row) (x : tensor) (i : nat) :
  Forall (fun r => length (BC r) = 2%nat) x ->
  take_cols 2 (get_objective_momf BC x) = map BC x /\
  take_cols 2 (firstn i (get_objective_momf BC x)) = map BC (firstn i x).
Proof.
  intros Hlen.
  assert (Hall : forall y, Forall (fun r => length (BC r) = 2%nat) y ->
                           take_cols 2 (get_objective_momf BC y) = map BC y).
  { intros y Hy. rewrite get_objective_momf_eq. unfold take_cols. rewrite map_map.
    apply map_ext_in. intros r Hr. rewrite Forall_forall in Hy.
    rewrite <- (Hy r Hr), firstn_app, Nat.sub_diag, firstn_all. cbn [firstn].
    apply app_nil_r. }
  split; [now apply Hall |].
  assert (Hpre : firstn i (get_objective_momf BC x)
                 = get_objective_momf BC (firstn i x)).
  { rewrite !get_objective_momf_eq. apply firstn_map. }
  rewrite Hpre. apply Hall.
  rewrite <- (firstn_skipn i x) in Hlen. apply Forall_app in Hlen. tauto.
Qed.

Lemma momf_evaluation_objectives_witness :
  take_cols 2 (get_objective_momf (fun r => firstn 2 r) [[1; 2; 3]])
  = map (fun r => firstn 2 r) [[1; 2; 3]].
Proof.
  refine (proj1 (momf_evaluation_objectives (fun r => firstn 2 r) [[1; 2; 3]] 0 _)).
  repeat constructor.
Defined.

(** ** The design points of the qNEHVI baseline *)

Lemma cat_cols_ones_eq (X : tensor) :
  cat_cols X (ones (length X) 1) = map (fun r => r ++ [1]) X.
Proof.
  unfold cat_cols, ones. cbn [repeat].
  induction X as [| r X IH]; [reflexivity |].
  cbn [length repeat combine map fst snd]. now rewrite IH.
Qed.

(** What the helper observes at: one row per candidate, the candidate
    unnormalized and then a [1] as one more, last coordinate. *)
Lemma qnehvi_new_x_eq (BC : row -> row) (acq : acquisition) it tx tobj b q :
  length (fst (acq it tx tobj)) = q ->
  fst (optimize_qNEHVI_and_get_obs BC acq it tx tobj b q)
  = map (fun r => unnormalize_row b r ++ [1]) (fst (acq it tx tobj)).
Proof.
  unfold optimize_qNEHVI_and_get_obs. destruct (acq it tx tobj) as [c v].
  cbn [fst]. intros <-.
  replace (length c) with (length (unnormalize c b))
    by (unfold unnormalize; apply length_map).
  rewrite cat_cols_ones_eq. unfold unnormalize. apply map_map.
Qed.

Lemma qnehvi_new_x_standard (BC : row -> row) (dim_x : nat) (acq : acquisition)
      it tx tobj q :
  (2 <= dim_x)%nat ->
  length (fst (acq it tx tobj)) = q ->
  Forall (fun r => length r = 2%nat) (fst (acq it tx tobj)) ->
  fst (optimize_qNEHVI_and_get_obs BC acq it tx tobj
                                   (bounds_take 2 (standard_bounds dim_x)) q)
  = map (fun r => r ++ [1]) (fst (acq it tx tobj)).
Proof.
  intros Hd Hq Hwidth. rewrite (qnehvi_new_x_eq BC acq it tx tobj _ q Hq).
  rewrite bounds_take_standard by assumption.
  apply map_ext_in. intros r Hr. rewrite Forall_forall in Hwidth.
  now rewrite unnormalize_row_standard by now apply Hwidth.
Qed.

Lemma qnehvi_step_appends (BC : row -> row) (dim_x : nat) (acq : acquisition) st :
  (2 <= dim_x)%nat ->
  acq_in_bounds 2 acq ->
  train_x (qnehvi_step BC dim_x acq st)
  = train_x st
    ++ map (fun r => r ++ [1])
           (fst (acq (iteration st) (take_cols 2 (train_x st)) (train_obj st))) /\
  length (fst (acq (iteration st) (take_cols 2 (train_x st)) (train_obj st))) = 1%nat /\
  Forall (fun r => length r = 2%nat)
         (fst (acq (iteration st) (take_cols 2 (train_x st)) (train_obj st))).
Proof.
  intros Hd Hacq.
  destruct (Hacq (iteration st) (take_cols 2 (train_x st)) (train_obj st)) as [Hq Hbox].
  pose proof (in_unit_box_length _ _ Hbox) as Hwidth.
  split; [| split; [exact Hq | exact Hwidth]].
  unfold qnehvi_step, update. cbn [train_x]. f_equal.
  now apply qnehvi_new_x_standard.
Qed.

(** C10.  Every design point the qNEHVI loop evaluates has three
    coordinates, the last of which, the fidelity, is exactly [1].  The two
    initial points are the two uniform draws with their third coordinate set
    to [1].  [optimize_qNEHVI_and_get_obs] returns one design point per
    candidate, in order: the candidate (unnormalized) with a [1] appended as
    one more coordinate, and the objective is evaluated on exactly those
    points.  So every iteration appends to the dataset the optimiser's
    two-coordinate candidate followed by the fidelity [1], and nothing
    else. *)
Theorem qnehvi_points_at_full_fidelity
        (u : nat -> R) (BC : row -> row) (dim_x : nat) (acq : acquisition) :
  (* the initial points *)
  train_x (qnehvi_init u BC)
  = [[u 0%nat; u 1%nat; 1]; [u 3%nat; u 4%nat; 1]] /\
  train_obj (qnehvi_init u BC) = map BC (train_x (qnehvi_init u BC)) /\
  (* the helper: a column of ones appended to the candidates *)
  (forall it tx tobj b q,
      length (fst (acq it tx tobj)) = q ->
      fst (optimize_qNEHVI_and_get_obs BC acq it tx tobj b q)
      = map (fun r => unnormalize_row b r ++ [1]) (fst (acq it tx tobj)) /\
      snd (optimize_qNEHVI_and_get_obs BC acq it tx tobj b q)
      = map BC (fst (optimize_qNEHVI_and_get_obs BC acq it tx tobj b q))) /\
  (forall it tx tobj q,
      (2 <= dim_x)%nat ->
      length (fst (acq it tx tobj)) = q ->
      Forall (fun r => length r = 2%nat) (fst (acq it tx tobj)) ->
      fst (optimize_qNEHVI_and_get_obs BC acq it tx tobj
                                       (bounds_take 2 (standard_bounds dim_x)) q)
      = map (fun r => r ++ [1]) (fst (acq it tx tobj))) /\
  (* whatever the optimiser returns, the fidelity observed at is 1 *)
  (forall it tx tobj b q,
      Forall (fun r => last_coord r = 1)
             (fst (optimize_qNEHVI_and_get_obs BC acq it tx tobj b q))) /\
  (forall k,
      at_full_fidelity BC (Nat.iter k (qnehvi_step BC dim_x acq) (qnehvi_init u BC))) /\
  (forall SMOKE_TEST fuel fin,
      bo_loop SMOKE_TEST (qnehvi_step BC dim_x acq) fuel (qnehvi_init u BC) = Some fin ->
      at_full_fidelity BC fin) /\
  (* with an optimiser that returns one candidate of two coordinates *)
  ((2 <= dim_x)%nat ->
   acq_in_bounds 2 acq ->
   (forall st,
       exists c,
         fst (acq (iteration st) (take_cols 2 (train_x st)) (train_obj st)) = [c] /\
         length c = 2%nat /\
         train_x (qnehvi_step BC dim_x acq st) = train_x st ++ [c ++ [1]] /\
         train_obj (qnehvi_step BC dim_x acq st) = train_obj st ++ [BC (c ++ [1])]) /\
   (forall k,
       length (train_x (Nat.iter k (qnehvi_step BC dim_x acq) (qnehvi_init u BC)))
       = (2 + k)%nat /\
       Forall (fun r => length r = 3%nat /\ last_coord r = 1)
              (train_x (Nat.iter k (qnehvi_step BC dim_x acq) (qnehvi_init u BC))))).
Proof.
  assert (Hiter : forall k, at_full_fidelity BC
                              (Nat.iter k (qnehvi_step BC dim_x acq) (qnehvi_init u BC))).
  { intros k. apply (iter_invariant (at_full_fidelity BC)).
    - intros st. apply qnehvi_step_full_fidelity.
    - apply qnehvi_init_full_fidelity. }
  split; [reflexivity |]. split; [reflexivity |].
  split; [| split; [| split; [| split; [exact Hiter | split]]]].
  - intros it tx tobj b q Hq.
    split; [now apply qnehvi_new_x_eq | apply qnehvi_new_obj].
  - intros it tx tobj q. apply qnehvi_new_x_standard.
  - intros it tx tobj b q. apply qnehvi_new_x_fidelity.
  - intros SMOKE_TEST fuel fin Hrun.
    destruct (bo_loop_result _ _ _ _ _ Hrun) as (k & _ & -> & _). apply Hiter.
  - intros Hd Hacq.
    assert (Hstep : forall st,
               exists c,
                 fst (acq (iteration st) (take_cols 2 (train_x st)) (train_obj st)) = [c] /\
                 length c = 2%nat /\
                 train_x (qnehvi_step BC dim_x acq st) = train_x st ++ [c ++ [1]] /\
                 train_obj (qnehvi_step BC dim_x acq st)
                 = train_obj st ++ [BC (c ++ [1])]).
    { intros st.
      destruct (qnehvi_step_appends BC dim_x acq st Hd Hacq) as (Happ & Hone & Hwidth).
      destruct (fst (acq (iteration st) (take_cols 2 (train_x st)) (train_obj st)))
        as [| c [| c' cs]] eqn:Hc; try discriminate.
      exists c. split; [reflexivity |]. split; [now apply Forall_inv in Hwidth |].
      split; [exact Happ |].
      unfold qnehvi_step, update. cbn [train_obj]. f_equal.
      rewrite qnehvi_new_obj.
      rewrite (qnehvi_new_x_standard BC dim_x acq _ _ _ BATCH_SIZE Hd);
        rewrite ?Hc; [reflexivity | reflexivity | exact Hwidth]. }
    split; [exact Hstep |].
    induction k as [| k [IHlen IHrows]].
    + change (Nat.iter 0 (qnehvi_step BC dim_x acq) (qnehvi_init u BC))
        with (qnehvi_init u BC).
      split; [reflexivity |].
      repeat constructor; unfold last_coord; reflexivity.
    + change (Nat.iter (S k) (qnehvi_step BC dim_x acq) (qnehvi_init u BC))
        with (qnehvi_step BC dim_x acq
                (Nat.iter k (qnehvi_step BC dim_x acq) (qnehvi_init u BC))).
      destruct (Hstep (Nat.iter k (qnehvi_step BC dim_x acq) (qnehvi_init u BC)))
        as (c & _ & Hlen & -> & _).
      rewrite length_app, IHlen. cbn [length]. split; [lia |].
      apply Forall_app. split; [exact IHrows |].
      constructor; [| constructor]. split.
      * rewrite length_app, Hlen. reflexivity.
      * unfold last_coord. apply last_last.
Qed.

(** One iteration of the baseline on concrete data: the candidate
    [(1/2, 1/2)] enters the dataset as [(1/2, 1/2, 1)]. *)
Lemma qnehvi_points_at_full_fidelity_witness :
  exists c,
    c = [1 / 2; 1 / 2] /\
    train_x (qnehvi_step (fun r => r) 3 (fun _ _ _ => ([[1 / 2; 1 / 2]], 0))
                         (qnehvi_init (fun _ => 0) (fun r => r)))
    = train_x (qnehvi_init (fun _ => 0) (fun r => r)) ++ [c ++ [1]].
Proof.
  assert (Hd : (2 <= 3)%nat) by lia.
  assert (Hacq : acq_in_bounds 2 (fun _ _ _ => ([[1 / 2; 1 / 2]], 0))).
  { intros it tx tobj. split; [reflexivity | repeat constructor; lra]. }
  pose proof (qnehvi_points_at_full_fidelity
                (fun _ => 0) (fun r => r) 3 (fun _ _ _ => ([[1 / 2; 1 / 2]], 0)))
    as (_ & _ & _ & _ & _ & _ & _ & Hloop).
  destruct (Hloop Hd Hacq) as [Hstep _].
  destruct (Hstep (qnehvi_init (fun _ => 0) (fun r => r))) as (c & Hc & _ & Happ & _).
  exists c. split; [| exact Happ].
  cbn [fst] in Hc. now injection Hc as <-.
Defined.
